(** * Loop-point discovery and track extension (ost-extender-musicbee)

    A shallow embedding of the four Python scripts of the repository:

    - [python/looper.py]      (command-line loop finder, module [PythonLooper]),
    - [plugin/looper.py]      (plugin back-end, module [PluginLooper]),
    - [analysis/looper.py]    (in-process variant, module [AnalysisLooper]),
    - [py script/python_script.py] (finder and extender, modules [Extender]
      and [PythonScript]).

    Conventions of the embedding.
    - numpy integers are [Z], Python [range] indices are [nat];
    - floating-point numbers (affinities, seconds) are exact rationals [Q]:
      the rounding of a product or a quotient is left out, so that the
      statements are made on frame and sample indices, on the formulas the
      scripts apply, or as bounds that rounding keeps;
    - a Python exception is a value [Raise msg] of the [result] type, [msg]
      being what [str(e)] yields;
    - what librosa computes from the samples (the recurrence matrix of the
      chromagram and the beat frames) is an input of the model. *)

From Stdlib Require Import ZArith QArith Qround Qminmax Lia Lqa Ascii.
From stdpp Require Import base option list strings.

Local Open Scope Z_scope.

(** ** Exceptions *)

Inductive result (A : Type) : Type :=
| Ok (a : A)
| Raise (msg : string).
Arguments Ok {A} a.
Arguments Raise {A} msg.

(** An exception raised by a statement skips the statements after it. *)
#[export] Instance result_bind : MBind result := λ A B k r,
  match r with
  | Ok a => k a
  | Raise msg => Raise msg
  end.

Definition is_ok {A : Type} (r : result A) : bool :=
  match r with Ok _ => true | Raise _ => false end.

(** ** Rational comparisons *)

Definition Qltb (a b : Q) : bool := negb (Qle_bool b a).

(** Python's [max(a, b)]: the first argument unless the second is greater. *)
Definition py_max (a b : Q) : Q := if Qltb a b then b else a.

(** ** Python slices

    [l[lo:hi]]: a negative bound counts from the end, and every bound is
    clamped to the list. *)

Definition slice_bound (len i : Z) : Z :=
  if i <? 0 then Z.max 0 (i + len) else Z.min i len.

Definition py_slice {A : Type} (l : list A) (lo hi : Z) : list A :=
  let n := Z.of_nat (length l) in
  let a := slice_bound n lo in
  let b := slice_bound n hi in
  take (Z.to_nat (b - a)) (drop (Z.to_nat a) l).

(** [range(n)] for a numpy integer [n]: empty when [n <= 0]. *)
Definition py_range (n : Z) : list nat := seq 0 (Z.to_nat n).

(** ** [np.argmax] and [np.argmin]

    Both scan the flattened array once and keep the first index of the
    extremum: the kept index changes only on a strict improvement. *)

Section FirstExtremum.
Context {A : Type} (better : A → A → bool).

Fixpoint scan_extremum (best_i : nat) (best : A) (i : nat) (l : list A) : nat :=
  match l with
  | [] => best_i
  | x :: l' =>
      if better x best then scan_extremum i x (S i) l'
      else scan_extremum best_i best (S i) l'
  end.

Definition first_extremum (l : list A) : option nat :=
  match l with
  | [] => None
  | x :: l' => Some (scan_extremum 0 x 1 l')
  end.
(** [r] is the first position of [l] that no element improves on. *)
Definition extremum_at (l : list A) (r : nat) : Prop :=
  ∃ v, l !! r = Some v
     ∧ (∀ j x, l !! j = Some x → better x v = false)
     ∧ (∀ j x, (j < r)%nat → l !! j = Some x → better v x = true).

End FirstExtremum.

Definition argmax (l : list Q) : result nat :=
  match first_extremum (λ x best, Qltb best x) l with
  | Some i => Ok i
  | None => Raise "attempt to get argmax of an empty sequence"
  end.

Definition argmin (l : list Z) : result nat :=
  match first_extremum (λ x best, x <? best) l with
  | Some i => Ok i
  | None => Raise "attempt to get argmin of an empty sequence"
  end.

(** ** Matrices

    A two-dimensional array is the list of its rows; [np.argmax] sees it
    flattened in row-major order. *)

Abbreviation matrix := (list (list Q)).

Definition nrows (m : matrix) : nat := length m.
Definition ncols (m : matrix) : nat :=
  match m with [] => 0%nat | r :: _ => length r end.

Definition entry (m : matrix) (i j : nat) : option Q :=
  m !! i ≫= λ row, row !! j.

Definition flatten (m : matrix) : list Q := concat m.

Definition square (n : nat) (m : matrix) : Prop :=
  length m = n ∧ Forall (λ row, length row = n) m.

Definition set_entry (i j : nat) (v : Q) (m : matrix) : matrix :=
  alter (λ row, <[j := v]> row) i m.

(** [np.fill_diagonal(m[r0:, c0:], val)] (without wrapping): the view has
    [nrows m - r0] rows and [ncols m - c0] columns, and its cells [(k, k)],
    which are the cells [(r0 + k, c0 + k)] of [m], are overwritten. *)
Definition fill_diagonal (r0 c0 : nat) (val : Q) (m : matrix) : matrix :=
  foldl (λ acc k, set_entry (r0 + k) (c0 + k) val acc) m
        (seq 0 (Nat.min (nrows m - r0) (ncols m - c0))).

(** The masking shared by the four scripts:
<<
    np.fill_diagonal(similarity_matrix, 0)
    for i in range(min_loop_frames):
        np.fill_diagonal(similarity_matrix[i:, :], 0)
        np.fill_diagonal(similarity_matrix[:, i:], 0)
>> *)
Definition mask_step (acc : matrix) (i : nat) : matrix :=
  fill_diagonal 0 i 0%Q (fill_diagonal i 0 0%Q acc).

Definition mask (min_loop_frames : Z) (similarity_matrix : matrix) : matrix :=
  foldl mask_step (fill_diagonal 0 0 0%Q similarity_matrix)
        (py_range min_loop_frames).

(** [np.unravel_index(idx, shape)] for a two-dimensional shape. *)
Definition unravel_index (idx : nat) (shape : nat * nat) : nat * nat :=
  (idx `div` shape.2, idx `mod` shape.2)%nat.

Definition shape (m : matrix) : nat * nat := (nrows m, ncols m).

(** Step 4 of [find_loop_points]:
<<
    frame2_coords, frame1_coords = np.unravel_index(np.argmax(m), m.shape)
    loop_start_frame, loop_end_frame = min(frame1, frame2), max(frame1, frame2)
>> *)
Definition search_loop_frames (m : matrix) : result (nat * nat) :=
  idx ← argmax (flatten m);
  let '(frame2_coords, frame1_coords) := unravel_index idx (shape m) in
  Ok (Nat.min frame1_coords frame2_coords, Nat.max frame1_coords frame2_coords).

(** ** librosa's unit conversions (default [hop_length = 512])

    [time_to_samples] truncates, [samples_to_frames] is a floor division.
    The product [t * sr] is the exact one here; numpy rounds it to a double
    before it truncates to a 64-bit integer, which can move the result by
    one sample when the exact product is an integer or next to one. *)

Definition hop_length : Z := 512.

Definition truncate (q : Q) : Z := Z.quot (Qnum q) (Z.pos (Qden q)).

Definition time_to_samples (t : Q) (sr : positive) : Z :=
  truncate (t * inject_Z (Z.pos sr))%Q.

Definition time_to_frames (t : Q) (sr : positive) : Z :=
  time_to_samples t sr `div` hop_length.

Definition frames_to_time (frame : Z) (sr : positive) : Q :=
  ((frame * hop_length) # sr)%Q.

(** [librosa.get_duration(y=y, sr=sr)] of a buffer of [n] samples. *)
Definition duration_of (n : nat) (sr : positive) : Q := (Z.of_nat n # sr)%Q.

(** ** What the feature extractor yields for a sample buffer [y] *)

Record analysis_input : Type := {
  n_samples : nat;
  (** [recurrence_matrix(chroma_cqt(y), mode='affinity')] *)
  recurrence_matrix : result matrix;
  (** [beat_track(y, units='frames')[1]] *)
  beat_track : result (list Z)
}.

(** ** Beat synchronisation

    [beat_frames[np.argmin(np.abs(beat_frames - frame))]] *)
Definition snap_to_beat (beat_frames : list Z) (frame : Z) : result Z :=
  i ← argmin ((λ b, Z.abs (b - frame)) <$> beat_frames);
  match beat_frames !! i with
  | Some b => Ok b
  | None => Raise "index out of bounds"
  end.

(** The statements shared by every [find_loop_points]: masking, search of
    the brightest cell, and snapping of both frames. *)
Definition synced_loop_frames (y : analysis_input) (sr : positive)
    (min_duration : Q) : result (Z * Z) :=
  similarity_matrix ← recurrence_matrix y;
  let min_loop_frames := time_to_frames min_duration sr in
  let similarity_matrix := mask min_loop_frames similarity_matrix in
  '(loop_start_frame, loop_end_frame) ← search_loop_frames similarity_matrix;
  beat_frames ← beat_track y;
  loop_start_frame_synced ← snap_to_beat beat_frames (Z.of_nat loop_start_frame);
  loop_end_frame_synced ← snap_to_beat beat_frames (Z.of_nat loop_end_frame);
  Ok (loop_start_frame_synced, loop_end_frame_synced).

(** ** Host-facing output *)

(** A printed line: [LoopLine a b] is [f"{a}:{b}"], a text line is itself. *)
Inductive line : Type :=
| LoopLine (loop_start loop_end : Q)
| TextLine (text : string).

Record outcome : Type := {
  stdout : list line;
  stderr : list line;
  status : Z
}.

Definition error_line (l : line) : Prop :=
  ∃ msg, l = TextLine ("Error: " +:+ msg).

(** What the file system and the decoder answer for the track path. *)
Record world : Type := {
  file_exists : bool;
  (** [librosa.load(path, sr=22050)]: the samples, or an exception
      ([python/looper.py] adds [duration=300]: it loads 300 seconds at most) *)
  load : result analysis_input
}.

Definition analysis_sr : positive := 22050%positive.

(** ** python/looper.py *)
Module PythonLooper.

Definition find_loop_points (y : analysis_input) (sr : positive)
    (min_duration : Q) : result (Q * Q) :=
  '(loop_start_frame_synced, loop_end_frame_synced) ←
    synced_loop_frames y sr min_duration;
  if decide (loop_start_frame_synced = loop_end_frame_synced)
  then Raise "Loop points are too close to sync to the beat."
  else Ok (frames_to_time loop_start_frame_synced sr,
           frames_to_time loop_end_frame_synced sr).

Definition min_loop_duration (total_duration : Q) : Q :=
  py_max 15 (total_duration * (15 # 100))%Q.

(** The body of the [try] block, up to the printing. *)
Definition analyse (w : world) : result (Q * Q) :=
  y ← load w;
  let sr := analysis_sr in
  let total_duration := duration_of (n_samples y) sr in
  if Qltb total_duration 20
  then Raise "Audio file is too short for meaningful loop analysis."
  else
    '(loop_start, loop_end) ← find_loop_points y sr (min_loop_duration total_duration);
    if Qltb loop_start loop_end
    then Ok (loop_start, loop_end)
    else Raise "Could not find a confident loop.".

(** The script once its argument is parsed. *)
Definition main (w : world) : outcome :=
  match analyse w with
  | Ok (loop_start, loop_end) =>
      {| stdout := [LoopLine loop_start loop_end]; stderr := []; status := 0 |}
  | Raise e =>
      {| stdout := []; stderr := [TextLine ("Error: " +:+ e)]; status := 1 |}
  end.

End PythonLooper.

(** ** plugin/looper.py *)
Module PluginLooper.

(** The function returns one string, the loop or the error text. *)
Definition find_loop_points (y : analysis_input) (sr : positive)
    (min_duration : Q) : line :=
  match synced_loop_frames y sr min_duration with
  | Ok (loop_start_frame_synced, loop_end_frame_synced) =>
      LoopLine (frames_to_time loop_start_frame_synced sr)
               (frames_to_time loop_end_frame_synced sr)
  | Raise e => TextLine ("Error: " +:+ e)
  end.

(** [total_duration * 0.15], with [0.15] taken as the rational [15/100]
    and the product exact. *)
Definition min_loop_duration (total_duration : Q) : Q :=
  (total_duration * (15 # 100))%Q.

Definition usage : line := TextLine "Usage: python looper.py <audio_file>".

(** [argv] is [sys.argv]; every [print] goes to standard output. *)
Definition main (argv : list string) (w : world) : outcome :=
  match argv with
  | [_; file_path] =>
      if negb (file_exists w)
      then {| stdout := [TextLine ("Error: File not found: " +:+ file_path)];
              stderr := []; status := 1 |}
      else
        match load w with
        | Ok y =>
            let sr := analysis_sr in
            let total_duration := duration_of (n_samples y) sr in
            if Qltb total_duration 20
            then {| stdout := [TextLine "Error: Audio file too short for analysis"];
                    stderr := []; status := 1 |}
            else
              let result := find_loop_points y sr (min_loop_duration total_duration) in
              {| stdout := [result]; stderr := []; status := 0 |}
        | Raise e =>
            {| stdout := [TextLine ("Error: " +:+ e)]; stderr := []; status := 1 |}
        end
  | _ => {| stdout := [usage]; stderr := []; status := 1 |}
  end.

End PluginLooper.

(** ** analysis/looper.py *)
Module AnalysisLooper.

Inductive report : Type :=
| Success (loop_start loop_end : Q)
| Failed (error : string).

Definition min_duration (total_duration : Q) : Q :=
  let min_duration := (total_duration * (15 # 100))%Q in
  if Qltb min_duration 10 then 10 else min_duration.

Definition find_loop_points_from_data (y : analysis_input) (sr : positive) : report :=
  let min_duration := min_duration (duration_of (n_samples y) sr) in
  match synced_loop_frames y sr min_duration with
  | Ok (loop_start_frame_synced, loop_end_frame_synced) =>
      Success (frames_to_time loop_start_frame_synced sr)
              (frames_to_time loop_end_frame_synced sr)
  | Raise e => Failed e
  end.

End AnalysisLooper.

(** ** py script/python_script.py: the extender *)
Module Extender.
Section Samples.
Context {A : Type}.

Definition get_duration (y : list A) (sr : positive) : Q :=
duration_of (length y) sr.

(** The [while] loop; [fuel] bounds the number of times its body runs,
  and [None] means that the loop is still running when it is spent.
<<
while current_duration < target_duration_seconds:
    extended_audio.extend(loop_segment)
    current_duration = librosa.get_duration(y=np.array(extended_audio), sr=sr)
>> *)
Fixpoint extend_loop (fuel : nat) (sr : positive) (target_duration_seconds : Q)
  (loop_segment extended_audio : list A) (current_duration : Q)
  : option (list A) :=
if Qltb current_duration target_duration_seconds then
  match fuel with
  | O => None
  | S fuel' =>
      let extended_audio := extended_audio ++ loop_segment in
      extend_loop fuel' sr target_duration_seconds loop_segment
                  extended_audio (get_duration extended_audio sr)
  end
else Some extended_audio.

(** [y] and [sr] are what [librosa.load(file_path, sr=None)] returns; the
  result is [final_audio], the buffer written to the output file. *)
Definition extend_track (fuel : nat) (y : list A) (sr : positive)
  (loop_start loop_end : Q) (target_duration_seconds : Q) : option (list A) :=
let loop_start_samples := time_to_samples loop_start sr in
let loop_end_samples := time_to_samples loop_end sr in
let intro_and_first_loop := py_slice y 0 loop_end_samples in
let loop_segment := py_slice y loop_start_samples loop_end_samples in
let extended_audio := intro_and_first_loop in
let current_duration := get_duration extended_audio sr in
extend_loop fuel sr target_duration_seconds loop_segment
            extended_audio current_duration.

(** [k] whole copies of a segment. *)
Definition copies (k : nat) (segment : list A) : list A :=
concat (replicate k segment).

End Samples.
End Extender.

(** ** py script/python_script.py: the whole script *)

(** [os.path.splitext]: the extension starts at the last dot, provided that
    dot comes after the last separator and after a character of the file
    name that is not a dot. [is_sep] tells the separators of the platform. *)

Definition dot : ascii := "."%char.

Fixpoint rfind_index (p : ascii → bool) (l : list ascii) (i : nat) (last : Z) : Z :=
  match l with
  | [] => last
  | c :: l' => rfind_index p l' (S i) (if p c then Z.of_nat i else last)
  end.

(** [str.rfind]: the last position, or [-1]. *)
Definition rfind (p : ascii → bool) (l : list ascii) : Z := rfind_index p l 0 (-1).

Definition splitext_chars (is_sep : ascii → bool) (p : list ascii)
    : list ascii * list ascii :=
  let sepIndex := rfind is_sep p in
  let dotIndex := rfind (λ c, Ascii.eqb c dot) p in
  if (sepIndex <? dotIndex)
     && existsb (λ c, negb (Ascii.eqb c dot)) (py_slice p (sepIndex + 1) dotIndex)
  then (py_slice p 0 dotIndex, drop (Z.to_nat dotIndex) p)
  else (p, []).

Definition splitext (is_sep : ascii → bool) (path : string) : string * string :=
  let '(root, ext) := splitext_chars is_sep (String.list_ascii_of_string path) in
  (String.string_of_list_ascii root, String.string_of_list_ascii ext).

Module PythonScript.
Section Samples.
Context {A : Type}.

(** A printed line: the two formatted ones keep their numbers. *)
Inductive printed : Type :=
| Text (text : string)
| LoopFound (loop_start loop_end : Q)
| Extending (target_duration_seconds : Z).

(** What the platform answers for the track path. *)
Record script_world : Type := {
  (** the path separators of [os.path] *)
  is_sep : ascii → bool;
  (** [librosa.load(track_path, sr=22050)] *)
  load_analysis : result analysis_input;
  (** [librosa.load(file_path, sr=None)] *)
  load_native : result (list A * positive);
  (** the exception raised by [sf.write], if it raises *)
  write_error : option string
}.

Record written_file : Type := {
  output_path : string;
  final_audio : list A;
  output_sr : positive
}.

Record script_outcome : Type := {
  printed_lines : list printed;
  written : option written_file
}.

(** [find_loop_points]: the lines it printed so far and its result. *)
Definition find_loop_points (y : analysis_input) (sr : positive)
    (min_duration : Q) : list printed * result (Q * Q) :=
  let lines := [Text "Analyzing harmony..."] in
  match (similarity_matrix ← recurrence_matrix y;
         search_loop_frames
           (mask (time_to_frames min_duration sr) similarity_matrix)) with
  | Raise e => (lines, Raise e)
  | Ok (loop_start_frame, loop_end_frame) =>
      (lines ++ [Text "Finding the beat and snapping points..."],
       beat_frames ← beat_track y;
       loop_start_frame_synced ← snap_to_beat beat_frames (Z.of_nat loop_start_frame);
       loop_end_frame_synced ← snap_to_beat beat_frames (Z.of_nat loop_end_frame);
       Ok (frames_to_time loop_start_frame_synced sr,
           frames_to_time loop_end_frame_synced sr))
  end.

(** [extend_track] with its messages and its file; [None] when the loop of
    [Extender.extend_track] is still running once the fuel is spent. *)
Definition extend_track (fuel : nat) (w : script_world) (file_path : string)
    (loop_start loop_end : Q) (target_duration_seconds : Z)
    : option (list printed * result written_file) :=
  let lines := [Extending target_duration_seconds] in
  match load_native w with
  | Raise e => Some (lines, Raise e)
  | Ok (y, sr) =>
      match Extender.extend_track fuel y sr loop_start loop_end
              (inject_Z target_duration_seconds) with
      | None => None
      | Some final_audio =>
          let '(base_name, ext) := splitext (is_sep w) file_path in
          let output_path := base_name +:+ "_extended.wav" in
          let lines := lines ++ [Text ("Saving extended file to: " +:+ output_path)] in
          match write_error w with
          | Some e => Some (lines, Raise e)
          | None =>
              Some (lines ++ [Text "Done!"],
                    Ok {| output_path := output_path; final_audio := final_audio;
                          output_sr := sr |})
          end
      end
  end.

Definition failed (lines : list printed) (e : string) : script_outcome :=
  {| printed_lines := lines ++ [Text ("An error occurred: " +:+ e)];
     written := None |}.

(** The script once its two arguments are parsed. *)
Definition main (fuel : nat) (w : script_world) (track_path : string)
    (duration : Z) : option script_outcome :=
  let lines := [Text ("Loading track: " +:+ track_path)] in
  match load_analysis w with
  | Raise e => Some (failed lines e)
  | Ok y =>
      let sr := analysis_sr in
      let total_duration := duration_of (n_samples y) sr in
      if Qltb total_duration 20
      then Some (failed lines "Audio file is too short for loop analysis.")
      else
        let min_loop_duration := (total_duration * (15 # 100))%Q in
        let '(found, loop_points) := find_loop_points y sr min_loop_duration in
        let lines := lines ++ found in
        match loop_points with
        | Raise e => Some (failed lines e)
        | Ok (loop_start, loop_end) =>
            let lines := lines ++ [LoopFound loop_start loop_end] in
            match extend_track fuel w track_path loop_start loop_end duration with
            | None => None
            | Some (extending, Raise e) => Some (failed (lines ++ extending) e)
            | Some (extending, Ok file) =>
                Some {| printed_lines := lines ++ extending; written := Some file |}
            end
        end
  end.

End Samples.
End PythonScript.

(** ** Properties used in the statements *)

Definition strictly_increasing (l : list Z) : Prop :=
  ∀ i j a b, l !! i = Some a → l !! j = Some b → (i < j)%nat → a < b.

Definition zero_matrix (n : nat) : matrix := replicate n (replicate n 0%Q).

(** What [librosa.segment.recurrence_matrix(chroma, mode='affinity')]
    returns for a chromagram of [n] frames: an [n]-by-[n] matrix whose main
    diagonal is empty, since the scripts leave [self] at its default
    [False]. *)
Definition affinity_matrix (n : nat) (m : matrix) : Prop :=
  square n m ∧ ∀ i, (i < n)%nat → entry m i i = Some 0%Q.

(** ** Inputs used in the examples *)

(** A three-frame track whose brightest cell joins the frames 0 and 2, with
    a single detected beat at frame 1. *)
Definition collapsing_track : analysis_input := {|
  n_samples := 1024;
  recurrence_matrix := Ok [[0; 0; 1]; [0; 0; 0]; [1; 0; 0]]%Q;
  beat_track := Ok [1]
|}.

(** A decoded track of 100 samples: 100 / 22050 seconds. *)
Definition short_track : world := {|
  file_exists := true;
  load := Ok {| n_samples := 100; recurrence_matrix := Ok []; beat_track := Ok [] |}
|}.

(** A 20-second track of 700 frames whose only bright cell joins the
    frames 0 and 699, with a beat on each of them. *)
Definition peak_track : analysis_input := {|
  n_samples := Z.to_nat 441000;
  recurrence_matrix := Ok (set_entry 0 699 1%Q (zero_matrix 700));
  beat_track := Ok [0; 699]
|}.

Definition peak_world : world := {|
  file_exists := true;
  load := Ok peak_track
|}.

(** A 20-second track on which the beat tracker detects nothing. *)
Definition beatless_track : analysis_input := {|
  n_samples := Z.to_nat 441000;
  recurrence_matrix := Ok (zero_matrix 2);
  beat_track := Ok []
|}.

Definition beatless_world : world := {|
  file_exists := true;
  load := Ok beatless_track
|}.

(** The separators of [ntpath], and a world for the script: a track that
    collapses on its single beat, decoded at 44100 Hz. *)
Definition nt_sep (c : ascii) : bool :=
  Ascii.eqb c "\"%char || Ascii.eqb c "/"%char.

Definition single_beat_track : analysis_input := {|
  n_samples := Z.to_nat 441000;
  recurrence_matrix := Ok (zero_matrix 2);
  beat_track := Ok [100]
|}.

Definition single_beat_world : @PythonScript.script_world Q := {|
  PythonScript.is_sep := nt_sep;
  PythonScript.load_analysis := Ok single_beat_track;
  PythonScript.load_native := Ok (replicate (Z.to_nat 882000) 0%Q, 44100%positive);
  PythonScript.write_error := None
|}.

(** The track with one bright cell, decoded as three samples at 1 Hz. *)
Definition peak_script_world : @PythonScript.script_world Q := {|
  PythonScript.is_sep := nt_sep;
  PythonScript.load_analysis := Ok peak_track;
  PythonScript.load_native := Ok ([1; 2; 3]%Q, 1%positive);
  PythonScript.write_error := None
|}.

(** A track that cannot be decoded. *)
Definition unreadable_world : @PythonScript.script_world Q := {|
  PythonScript.is_sep := nt_sep;
  PythonScript.load_analysis := Raise "Input file could not be read";
  PythonScript.load_native := Raise "Input file could not be read";
  PythonScript.write_error := None
|}.



(** * Properties *)

(** ** Comparisons *)

Lemma Qltb_lt a b : Qltb a b = true ↔ (a < b)%Q.
Proof.
  unfold Qltb. rewrite negb_true_iff. split.
  - intros H. apply Qnot_le_lt. intros Hle.
    apply Qle_bool_iff in Hle. congruence.
  - intros H. destruct (Qle_bool b a) eqn:E; [|done].
    apply Qle_bool_iff in E. exfalso. by apply (Qlt_not_le a b).
Qed.

Lemma Qltb_ge a b : Qltb a b = false ↔ (b <= a)%Q.
Proof.
  unfold Qltb. rewrite negb_false_iff. apply Qle_bool_iff.
Qed.

(** ** The first extremum of a scan *)

Section FirstExtremumSpec.
Context {A : Type} (better : A → A → bool).
Hypothesis better_irrefl : ∀ a, better a a = false.
Hypothesis better_trans :
  ∀ a b c, better a b = true → better b c = true → better a c = true.
Hypothesis better_ntrans :
  ∀ a b c, better a b = false → better b c = false → better a c = false.

Lemma scan_extremum_spec (l pre : list A) (best_i : nat) (best : A) :
  pre !! best_i = Some best →
  (∀ j x, pre !! j = Some x → better x best = false) →
  (∀ j x, (j < best_i)%nat → pre !! j = Some x → better best x = true) →
  extremum_at better (pre ++ l) (scan_extremum better best_i best (length pre) l).
Proof.
  revert pre best_i best.
  induction l as [|x l IH]; intros pre best_i best Hbest Hmax Hfirst; simpl.
  - rewrite app_nil_r. by exists best.
  - replace (pre ++ x :: l) with ((pre ++ [x]) ++ l)
      by (by rewrite <- app_assoc).
    replace (S (length pre)) with (length (pre ++ [x]))
      by (rewrite length_app; simpl; lia).
    destruct (better x best) eqn:Hx.
    + apply IH.
      * rewrite lookup_app_r by lia. by rewrite Nat.sub_diag.
      * intros j y Hj. apply lookup_snoc_Some in Hj as [[_ Hj]|[_ <-]].
        -- destruct (better y x) eqn:Hyx; [|done].
           rewrite <- (Hmax j y Hj). symmetry. by eapply better_trans.
        -- apply better_irrefl.
      * intros j y Hlt Hj.
        apply lookup_snoc_Some in Hj as [[_ Hj]|[Hlen _]]; [|lia].
        destruct (better x y) eqn:Hxy; [done|].
        rewrite <- Hx. symmetry. eapply better_ntrans; [done|].
        by eapply Hmax.
    + apply IH.
      * apply lookup_app_l_Some, Hbest.
      * intros j y Hj. apply lookup_snoc_Some in Hj as [[_ Hj]|[_ <-]]; eauto.
      * intros j y Hlt Hj.
        apply lookup_snoc_Some in Hj as [[_ Hj]|[Hlen _]]; [eauto|].
        apply lookup_lt_Some in Hbest. lia.
Qed.

Lemma first_extremum_spec (l : list A) (r : nat) :
  first_extremum better l = Some r → extremum_at better l r.
Proof.
  destruct l as [|x l]; [done|]. simpl. intros [= <-].
  apply (scan_extremum_spec l [x] 0 x); [done| |intros; lia].
  intros [|j] y Hj; [|done]. injection Hj as <-. apply better_irrefl.
Qed.

Lemma first_extremum_is_Some (l : list A) :
  l ≠ [] → is_Some (first_extremum better l).
Proof. destruct l; [done|]. by eexists. Qed.
End FirstExtremumSpec.

Lemma argmax_spec (l : list Q) (r : nat) :
  argmax l = Ok r →
  ∃ v, l !! r = Some v
     ∧ (∀ j x, l !! j = Some x → (x <= v)%Q)
     ∧ (∀ j x, (j < r)%nat → l !! j = Some x → (x < v)%Q).
Proof.
  unfold argmax. destruct (first_extremum _ l) as [i|] eqn:E; [|done].
  intros [= ->]. apply first_extremum_spec in E as (v & Hv & Hmax & Hfirst).
  - exists v. split; [done|]. split.
    + intros j x Hj. apply Qltb_ge. eauto.
    + intros j x Hlt Hj. apply Qltb_lt. eauto.
  - intros a. apply Qltb_ge, Qle_refl.
  - intros a b c. rewrite !Qltb_lt. intros H1 H2. by eapply Qlt_trans.
  - intros a b c. rewrite !Qltb_ge. intros H1 H2. by eapply Qle_trans.
Qed.

Lemma argmax_is_Ok (l : list Q) : l ≠ [] → ∃ r, argmax l = Ok r.
Proof.
  intros Hl. unfold argmax.
  destruct (first_extremum_is_Some (λ x best, Qltb best x) l Hl) as [r ->].
  by exists r.
Qed.

Lemma argmin_spec (l : list Z) (r : nat) :
  argmin l = Ok r →
  ∃ v, l !! r = Some v
     ∧ (∀ j x, l !! j = Some x → v ≤ x)
     ∧ (∀ j x, (j < r)%nat → l !! j = Some x → v < x).
Proof.
  unfold argmin. destruct (first_extremum _ l) as [i|] eqn:E; [|done].
  intros [= ->]. apply first_extremum_spec in E as (v & Hv & Hmax & Hfirst).
  - exists v. split; [done|]. split.
    + intros j x Hj. specialize (Hmax j x Hj). lia.
    + intros j x Hlt Hj. specialize (Hfirst j x Hlt Hj). lia.
  - intros a. lia.
  - intros a b c. lia.
  - intros a b c. lia.
Qed.

Lemma argmin_is_Ok (l : list Z) : l ≠ [] → ∃ r, argmin l = Ok r.
Proof.
  intros Hl. unfold argmin.
  destruct (first_extremum_is_Some (λ x best, x <? best) l Hl) as [r ->].
  by exists r.
Qed.

(** ** Cells of a matrix *)

Lemma square_ncols n m : square n m → ncols m = n.
Proof.
  intros [Hlen Hrows]. destruct m as [|r m]; [done|].
  simpl. by inversion Hrows.
Qed.

Lemma square_entry_is_Some n m i j :
  square n m → (i < n)%nat → (j < n)%nat → is_Some (entry m i j).
Proof.
  intros [Hlen Hrows] Hi Hj. unfold entry.
  destruct (lookup_lt_is_Some_2 m i) as [row Hrow]; [lia|].
  rewrite Hrow. simpl. apply lookup_lt_is_Some_2.
  rewrite Forall_lookup in Hrows. rewrite (Hrows i row Hrow). lia.
Qed.

Lemma entry_is_Some_lt n m i j :
  square n m → is_Some (entry m i j) → (i < n)%nat ∧ (j < n)%nat.
Proof.
  intros [Hlen Hrows] [v Hv]. unfold entry in Hv.
  destruct (m !! i) as [row|] eqn:Hrow; [|done]. simpl in Hv.
  split.
  - apply lookup_lt_Some in Hrow. lia.
  - rewrite Forall_lookup in Hrows. rewrite <- (Hrows i row Hrow).
    by eapply lookup_lt_Some.
Qed.

Lemma set_entry_square n m r c v : square n m → square n (set_entry r c v m).
Proof.
  intros [Hlen Hrows]. unfold set_entry. split.
  - by rewrite length_alter.
  - apply Forall_alter; [done|]. intros row _ Hrow. by rewrite length_insert.
Qed.

Lemma entry_set_entry m r c v i j :
  entry (set_entry r c v m) i j =
  if decide (i = r ∧ j = c ∧ is_Some (entry m i j)) then Some v else entry m i j.
Proof.
  unfold entry, set_entry.
  destruct (decide (i = r)) as [->|Hir].
  - rewrite list_lookup_alter_eq.
    destruct (m !! r) as [row|] eqn:Hrow; simpl.
    + destruct (decide (j = c)) as [->|Hjc].
      * destruct (row !! c) as [x|] eqn:Hx.
        -- rewrite decide_True by eauto.
           apply list_lookup_insert_eq. by eapply lookup_lt_Some.
        -- rewrite decide_False by (intros (_ & _ & Hs); by apply is_Some_None in Hs).
           rewrite list_insert_ge; [done|]. by apply lookup_ge_None.
      * rewrite decide_False by (by intros (_ & ? & _)).
        by rewrite list_lookup_insert_ne.
    + rewrite decide_False; [done|]. intros (_ & _ & Hs). by apply is_Some_None in Hs.
  - rewrite list_lookup_alter_ne by done.
    rewrite decide_False; [done|]. by intros (? & _).
Qed.

(** ** [fill_diagonal] and the mask *)

Lemma fill_cells_spec n m r0 c0 v cnt :
  square n m →
  let m' := foldl (λ acc k, set_entry (r0 + k) (c0 + k) v acc) m (seq 0 cnt) in
  square n m' ∧
  ∀ i j, entry m' i j =
    if decide (r0 ≤ i ∧ c0 ≤ j ∧ i - r0 = j - c0 ∧ i - r0 < cnt
               ∧ is_Some (entry m i j))%nat
    then Some v else entry m i j.
Proof.
  intros Hsq. cbv zeta. induction cnt as [|cnt [IHsq IH]].
  - split; [done|]. intros i j. rewrite decide_False; [done|]. lia.
  - rewrite seq_S, foldl_snoc. simpl. split; [by apply set_entry_square|].
    intros i j. rewrite entry_set_entry, IH.
    assert (is_Some (entry m i j) → (i < n)%nat ∧ (j < n)%nat) as Hin
      by apply entry_is_Some_lt, Hsq.
    destruct (decide (i = r0 + cnt ∧ j = c0 + cnt ∧ _)%nat) as [(-> & -> & Hs)|Hn].
    + rewrite decide_True; [done|].
      repeat split; try lia.
      destruct (decide (_ ∧ _)) as [(_ & _ & _ & _ & ?)|_]; [done|].
      done.
    + destruct (decide (r0 ≤ i ∧ c0 ≤ j ∧ i - r0 = j - c0 ∧ i - r0 < cnt ∧ _)%nat)
        as [Hy|Hy].
      * rewrite decide_True; [done|]. intuition lia.
      * destruct (decide (r0 ≤ i ∧ c0 ≤ j ∧ i - r0 = j - c0 ∧ i - r0 < S cnt ∧ _)%nat)
          as [(H1 & H2 & H3 & H4 & H5)|Hz]; [|done].
        exfalso. destruct (decide (i - r0 < cnt)%nat) as [Hlt|Hge].
        -- apply Hy. intuition lia.
        -- apply Hn. split; [lia|]. split; [lia|]. done.
Qed.

Lemma fill_diagonal_square n m r0 c0 v :
  square n m → square n (fill_diagonal r0 c0 v m).
Proof. intros Hsq. by apply (fill_cells_spec n m r0 c0 v). Qed.

Lemma fill_diagonal_entry n m r0 c0 v i j :
  square n m → (i < n)%nat → (j < n)%nat →
  entry (fill_diagonal r0 c0 v m) i j =
  if decide (r0 ≤ i ∧ c0 ≤ j ∧ i - r0 = j - c0)%nat then Some v else entry m i j.
Proof.
  intros Hsq Hi Hj. unfold fill_diagonal.
  destruct (fill_cells_spec n m r0 c0 v
              (Nat.min (nrows m - r0) (ncols m - c0)) Hsq) as [_ ->].
  rewrite (square_ncols n m Hsq). unfold nrows. rewrite (proj1 Hsq).
  pose proof (square_entry_is_Some n m i j Hsq Hi Hj) as Hs.
  destruct (decide (r0 ≤ i ∧ c0 ≤ j ∧ i - r0 = j - c0)%nat) as [Hd|Hd].
  - rewrite decide_True; [done|]. intuition lia.
  - rewrite decide_False; [done|]. intuition lia.
Qed.

Lemma mask_square n m min_loop_frames :
  square n m → square n (mask min_loop_frames m).
Proof.
  intros Hsq. unfold mask, py_range.
  induction (Z.to_nat min_loop_frames) as [|c IH].
  - by apply fill_diagonal_square.
  - rewrite seq_S, foldl_snoc. unfold mask_step at 1.
    by do 2 apply fill_diagonal_square.
Qed.

(** The cells within [c] frames of the main diagonal, and the diagonal
    itself, are the cells that [c] rounds of the loop have cleared. *)
Lemma mask_rounds_entry n m c i j :
  square n m → (i < n)%nat → (j < n)%nat →
  entry (foldl mask_step (fill_diagonal 0 0 0%Q m) (seq 0 c)) i j =
  if decide (i = j ∨ (i < j + c ∧ j < i + c))%nat then Some 0%Q else entry m i j.
Proof.
  intros Hsq Hi Hj. induction c as [|c IH].
  - simpl. rewrite (fill_diagonal_entry n) by done.
    destruct (decide (i = j)) as [->|Hne].
    + rewrite !decide_True; [done|by left|lia].
    + rewrite !decide_False; [done|lia|lia].
  - rewrite seq_S, foldl_snoc. unfold mask_step at 1.
    assert (square n (foldl mask_step (fill_diagonal 0 0 0%Q m) (seq 0 c))) as Hsq'.
    { clear IH. induction c as [|c IHc].
      - by apply fill_diagonal_square.
      - rewrite seq_S, foldl_snoc. unfold mask_step at 1.
        by do 2 apply fill_diagonal_square. }
    rewrite (fill_diagonal_entry n) by (by try apply fill_diagonal_square).
    rewrite (fill_diagonal_entry n) by done. rewrite IH.
    repeat case_decide; try done; exfalso; lia.
Qed.

Lemma mask_entry n m min_loop_frames i j :
  square n m → (i < n)%nat → (j < n)%nat →
  entry (mask min_loop_frames m) i j =
  if decide (i = j ∨ Z.abs (Z.of_nat i - Z.of_nat j) < min_loop_frames)
  then Some 0%Q else entry m i j.
Proof.
  intros Hsq Hi Hj. unfold mask, py_range.
  rewrite (mask_rounds_entry n) by done.
  repeat case_decide; try done; exfalso; lia.
Qed.

(** ** The row-major view of a matrix *)

Lemma flatten_lookup n (m : matrix) idx :
  Forall (λ row, length row = n) m → (0 < n)%nat →
  flatten m !! idx = entry m (idx `div` n) (idx `mod` n).
Proof.
  intros Hrows Hn. revert idx.
  induction Hrows as [|row m' Hrow Hrows IH]; intros idx; [done|].
  unfold flatten in *. simpl.
  destruct (decide (idx < n)%nat) as [Hlt|Hge].
  - rewrite lookup_app_l by lia.
    rewrite Nat.div_small, Nat.mod_small by done. done.
  - rewrite lookup_app_r by lia. rewrite Hrow, IH.
    replace idx with ((idx - n) + 1 * n)%nat at 3 4 by lia.
    rewrite Nat.div_add, Nat.Div0.mod_add by lia.
    by rewrite Nat.add_1_r.
Qed.

Lemma flatten_length n (m : matrix) :
  square n m → length (flatten m) = (n * n)%nat.
Proof.
  intros [Hlen Hrows]. rewrite <- Hlen at 1. clear Hlen. unfold flatten.
  induction Hrows as [|row m' Hrow Hrows IH]; [done|].
  simpl. rewrite length_app, IH. lia.
Qed.

Lemma flatten_cell n (m : matrix) i j :
  square n m → (j < n)%nat → flatten m !! (i * n + j)%nat = entry m i j.
Proof.
  intros [_ Hrows] Hj. rewrite (flatten_lookup n) by (done || lia).
  replace ((i * n + j) `div` n)%nat with i
    by (apply (Nat.div_unique _ _ _ j); lia).
  replace ((i * n + j) `mod` n)%nat with j
    by (apply (Nat.mod_unique _ _ i); lia).
  done.
Qed.

(** The search returns the first brightest cell in row-major order. *)
Lemma search_loop_frames_spec n (m : matrix) :
  square n m → (0 < n)%nat →
  ∃ r c v,
    search_loop_frames m = Ok (Nat.min c r, Nat.max c r)
    ∧ (r < n)%nat ∧ (c < n)%nat
    ∧ entry m r c = Some v
    ∧ (∀ i j x, entry m i j = Some x → (x <= v)%Q)
    ∧ (∀ i j x, (j < n)%nat → (i * n + j < r * n + c)%nat →
                entry m i j = Some x → (x < v)%Q).
Proof.
  intros Hsq Hn. unfold search_loop_frames.
  destruct (argmax_is_Ok (flatten m)) as [idx Hidx].
  { intros Hnil. apply (f_equal length) in Hnil.
    rewrite (flatten_length n) in Hnil by done. simpl in Hnil. nia. }
  rewrite Hidx. simpl.
  apply argmax_spec in Hidx as (v & Hv & Hmax & Hfirst).
  assert (idx < n * n)%nat as Hlt.
  { rewrite <- (flatten_length n m Hsq). by eapply lookup_lt_Some. }
  unfold shape. rewrite (square_ncols n m Hsq). simpl.
  exists (idx `div` n)%nat, (idx `mod` n)%nat, v.
  split; [done|].
  split; [apply Nat.Div0.div_lt_upper_bound; lia|].
  split; [apply Nat.mod_upper_bound; lia|].
  split; [by rewrite <- (flatten_lookup n) by (apply Hsq || done)|].
  split.
  - intros i j x Hx.
    destruct (entry_is_Some_lt n m i j Hsq) as [_ Hj]; [by eexists|].
    rewrite <- (flatten_cell n) in Hx by done. eauto.
  - intros i j x Hj Hord Hx.
    rewrite <- (flatten_cell n) in Hx by done.
    eapply Hfirst; [|done].
    pose proof (Nat.div_mod_eq idx n). lia.
Qed.

(** ** Claims on the similarity matrix and the search *)

(** C2. For every affinity matrix of [n] frames, as
    [librosa.segment.recurrence_matrix] returns it, and every
    [min_loop_frames], the masked matrix has the same shape, is zero at
    every entry [(i, j)] with [|i - j| < min_loop_frames], and equals the
    unmasked matrix at every entry with [|i - j| >= min_loop_frames]: the
    unconditional [np.fill_diagonal(similarity_matrix, 0)] overwrites a
    diagonal that is already empty. *)
Theorem mask_clears_band n (similarity_matrix : matrix) min_loop_frames :
  affinity_matrix n similarity_matrix →
  let masked := mask min_loop_frames similarity_matrix in
  square n masked
  ∧ ∀ i j, (i < n)%nat → (j < n)%nat →
      (Z.abs (Z.of_nat i - Z.of_nat j) < min_loop_frames →
         entry masked i j = Some 0%Q) ∧
      (min_loop_frames ≤ Z.abs (Z.of_nat i - Z.of_nat j) →
         entry masked i j = entry similarity_matrix i j).
Proof.
  intros [Hsq Hdiag] masked. split; [by apply mask_square|].
  intros i j Hi Hj. unfold masked. rewrite (mask_entry n) by done.
  split.
  - intros Hband. rewrite decide_True; [done|]. by right.
  - intros Hfar. destruct (decide (i = j)) as [->|Hne].
    + rewrite decide_True by (by left). symmetry. by apply Hdiag.
    + rewrite decide_False; [done|]. lia.
Qed.

Lemma mask_clears_band_witness :
  let m := [[0; 2; 3]; [4; 0; 6]; [7; 8; 0]]%Q in
  affinity_matrix 3 m
  ∧ entry (mask 2 m) 1 0 = Some 0%Q
  ∧ entry (mask 2 m) 0 2 = entry m 0 2
  ∧ entry (mask 0 m) 1 1 = entry m 1 1.
Proof.
  intros m.
  assert (affinity_matrix 3 m) as Haff.
  { split; [split; [reflexivity|repeat constructor]|].
    intros [|[|[|i]]] Hi; try reflexivity. lia. }
  split; [exact Haff|].
  destruct (mask_clears_band 3 m 2 Haff) as [_ Hcells].
  destruct (mask_clears_band 3 m 0 Haff) as [_ Hcells0].
  split; [|split].
  - apply (Hcells 1 0)%nat; [lia|lia|]. simpl. lia.
  - apply (Hcells 0 2)%nat; [lia|lia|]. simpl. lia.
  - apply (Hcells0 1 1)%nat; [lia|lia|]. simpl. lia.
Defined.

(** On a square matrix of any content the mask clears the main diagonal as
    well, whatever [min_loop_frames] is. *)
Lemma mask_clears_diagonal_and_band n (similarity_matrix : matrix) min_loop_frames :
  square n similarity_matrix →
  ∀ i j, (i < n)%nat → (j < n)%nat →
    (i = j ∨ Z.abs (Z.of_nat i - Z.of_nat j) < min_loop_frames →
       entry (mask min_loop_frames similarity_matrix) i j = Some 0%Q) ∧
    (i ≠ j → min_loop_frames ≤ Z.abs (Z.of_nat i - Z.of_nat j) →
       entry (mask min_loop_frames similarity_matrix) i j
       = entry similarity_matrix i j).
Proof.
  intros Hsq i j Hi Hj. rewrite (mask_entry n) by done.
  split.
  - intros Hband. by rewrite decide_True.
  - intros Hne Hfar. rewrite decide_False; [done|]. lia.
Qed.

Lemma mask_entry_diagonal n (m : matrix) min_loop_frames i :
  square n m → (i < n)%nat → entry (mask min_loop_frames m) i i = Some 0%Q.
Proof.
  intros Hsq Hi. rewrite (mask_entry n) by done. rewrite decide_True; auto.
Qed.

(** When no cell is positive and the first cell holds 0, the scan keeps the
    first cell. *)
Lemma search_origin_of_nonpositive n (m : matrix) :
  square n m → (0 < n)%nat →
  (∀ i j x, entry m i j = Some x → (x <= 0)%Q) →
  entry m 0 0 = Some 0%Q →
  search_loop_frames m = Ok (0%nat, 0%nat).
Proof.
  intros Hsq Hn Hzero Horigin.
  destruct (search_loop_frames_spec n _ Hsq Hn)
    as (r & c & v & -> & Hr & Hc & Hv & _ & Hfirst).
  destruct (decide (r = 0 ∧ c = 0)%nat) as [[-> ->]|Hne]; [done|].
  exfalso.
  assert (0 < v)%Q as Hpos by (apply (Hfirst 0 0 0%Q)%nat; [done|nia|done]).
  apply (Qlt_not_le _ _ Hpos). by eapply Hzero.
Qed.

(** C1 (amended). For every nonempty masked similarity matrix whose maximum
    entry is 0 (no entry exceeds 0), the search reports no failure: it
    returns the pair [(0, 0)], the first cell of the row-major scan. *)
Theorem search_all_zero_returns_origin n (similarity_matrix : matrix) min_loop_frames :
  square n similarity_matrix → (0 < n)%nat →
  (∀ i j x, entry (mask min_loop_frames similarity_matrix) i j = Some x →
            (x <= 0)%Q) →
  search_loop_frames (mask min_loop_frames similarity_matrix) = Ok (0%nat, 0%nat).
Proof.
  intros Hsq Hn Hzero.
  apply (search_origin_of_nonpositive n); [|done|done|].
  - by apply mask_square.
  - by apply (mask_entry_diagonal n).
Qed.

Lemma search_all_zero_returns_origin_witness :
  let m := [[1; 1]; [1; 1]]%Q in
  square 2 m ∧ (0 < 2)%nat ∧
  (∀ i j x, entry (mask 2 m) i j = Some x → (x <= 0)%Q) ∧
  search_loop_frames (mask 2 m) = Ok (0%nat, 0%nat).
Proof.
  intros m.
  assert (square 2 m) as Hsq by (split; [reflexivity|repeat constructor]).
  assert (∀ i j x, entry (mask 2 m) i j = Some x → (x <= 0)%Q) as Hzero.
  { intros [|[|i]] [|[|j]] x Hx; try discriminate Hx;
      injection Hx as <-; apply Qle_refl. }
  split; [exact Hsq|]. split; [lia|]. split; [exact Hzero|].
  apply (search_all_zero_returns_origin 2 m 2 Hsq); [lia|exact Hzero].
Defined.

(** The claim as written fails: on a fully masked matrix the search returns
    a pair, not a failure. *)
Lemma search_all_zero_counterexample :
  mask 1 (zero_matrix 2) = zero_matrix 2 ∧
  search_loop_frames (mask 1 (zero_matrix 2)) = Ok (0%nat, 0%nat).
Proof. split; reflexivity. Qed.

(** C4 (amended). For every nonempty masked similarity matrix the search
    returns [start_frame <= end_frame], both within the matrix bounds; the
    inequality is strict when some entry of the masked matrix is positive. *)
Theorem search_ordered_within_bounds n (similarity_matrix : matrix) min_loop_frames :
  square n similarity_matrix → (0 < n)%nat →
  ∃ start_frame end_frame,
    search_loop_frames (mask min_loop_frames similarity_matrix)
    = Ok (start_frame, end_frame)
    ∧ (start_frame ≤ end_frame)%nat ∧ (end_frame < n)%nat
    ∧ ((∃ i j x, entry (mask min_loop_frames similarity_matrix) i j = Some x
                 ∧ (0 < x)%Q) →
       (start_frame < end_frame)%nat).
Proof.
  intros Hsq Hn.
  pose proof (mask_square n _ min_loop_frames Hsq) as Hsq'.
  destruct (search_loop_frames_spec n _ Hsq' Hn)
    as (r & c & v & -> & Hr & Hc & Hv & Hmax & _).
  exists (Nat.min c r), (Nat.max c r).
  split; [done|]. split; [lia|]. split; [lia|].
  intros (i & j & x & Hx & Hpos).
  assert (r ≠ c) as Hne; [|lia].
  intros ->. rewrite (mask_entry_diagonal n) in Hv by done.
  injection Hv as <-.
  apply (Qlt_not_le _ _ Hpos). by eapply Hmax.
Qed.

Lemma search_ordered_within_bounds_witness :
  let m := [[0; 0; 1]; [0; 0; 0]; [1; 0; 0]]%Q in
  square 3 m ∧ (0 < 3)%nat ∧
  ∃ start_frame end_frame,
    search_loop_frames (mask 2 m) = Ok (start_frame, end_frame)
    ∧ (start_frame ≤ end_frame)%nat ∧ (end_frame < 3)%nat
    ∧ ((∃ i j x, entry (mask 2 m) i j = Some x ∧ (0 < x)%Q) →
       (start_frame < end_frame)%nat).
Proof.
  intros m.
  assert (square 3 m) as Hsq by (split; [reflexivity|repeat constructor]).
  split; [exact Hsq|]. split; [lia|].
  apply (search_ordered_within_bounds 3 m 2 Hsq). lia.
Defined.

(** The claim as written fails: when [min_loop_frames] reaches the number of
    frames every cell is cleared and the search returns twice the frame 0. *)
Lemma search_strict_order_counterexample :
  let m := [[1; 2; 3]; [4; 5; 6]; [7; 8; 9]]%Q in
  square 3 m ∧
  search_loop_frames (mask 3 m) = Ok (0%nat, 0%nat) ∧ ¬ (0 < 0)%nat.
Proof.
  split; [|split]; [|reflexivity|lia].
  split; [reflexivity|repeat constructor].
Qed.

(** ** Beat synchronisation *)

Lemma snap_to_beat_spec beat_frames frame b :
  snap_to_beat beat_frames frame = Ok b →
  ∃ i, beat_frames !! i = Some b
     ∧ (∀ j x, beat_frames !! j = Some x → Z.abs (b - frame) ≤ Z.abs (x - frame))
     ∧ (∀ j x, (j < i)%nat → beat_frames !! j = Some x →
               Z.abs (b - frame) < Z.abs (x - frame)).
Proof.
  unfold snap_to_beat.
  destruct (argmin _) as [i|] eqn:Hi; [|done]. simpl.
  destruct (beat_frames !! i) as [b'|] eqn:Hb; [|done].
  intros [= ->]. apply argmin_spec in Hi as (v & Hv & Hmin & Hfirst).
  rewrite list_lookup_fmap, Hb in Hv. injection Hv as <-.
  exists i. split; [done|]. split.
  - intros j x Hx. apply (Hmin j). by rewrite list_lookup_fmap, Hx.
  - intros j x Hlt Hx. apply (Hfirst j); [done|].
    by rewrite list_lookup_fmap, Hx.
Qed.

Lemma snap_to_beat_is_Ok beat_frames frame :
  beat_frames ≠ [] → ∃ b, snap_to_beat beat_frames frame = Ok b.
Proof.
  intros Hne. unfold snap_to_beat.
  destruct (argmin_is_Ok ((λ b, Z.abs (b - frame)) <$> beat_frames)) as [i Hi].
  { by destruct beat_frames. }
  rewrite Hi. simpl.
  apply argmin_spec in Hi as (v & Hv & _).
  rewrite list_lookup_fmap in Hv.
  destruct (beat_frames !! i) as [b|]; [by exists b|done].
Qed.

Lemma snap_to_beat_monotone beat_frames start_frame end_frame b1 b2 :
  strictly_increasing beat_frames → start_frame ≤ end_frame →
  snap_to_beat beat_frames start_frame = Ok b1 →
  snap_to_beat beat_frames end_frame = Ok b2 →
  b1 ≤ b2.
Proof.
  intros Hinc Hle H1 H2.
  apply snap_to_beat_spec in H1 as (i1 & Hb1 & _ & Hfirst1).
  apply snap_to_beat_spec in H2 as (i2 & Hb2 & Hmin2 & _).
  destruct (decide (i1 < i2)%nat) as [Hlt|Hge].
  { pose proof (Hinc i1 i2 b1 b2 Hb1 Hb2 Hlt). lia. }
  destruct (decide (i1 = i2)) as [->|Hne].
  { rewrite Hb1 in Hb2. injection Hb2 as <-. lia. }
  assert (i2 < i1)%nat as Hlt by lia.
  pose proof (Hinc i2 i1 b2 b1 Hb2 Hb1 Hlt) as Hord.
  pose proof (Hfirst1 i2 b2 Hlt Hb2) as Hcloser.
  pose proof (Hmin2 i1 b1 Hb1) as Hnearest.
  lia.
Qed.

(** C10. For a strictly increasing beat grid and a candidate with
    [start_frame <= end_frame], both frames snap to a beat when the grid is
    not empty, the synced start is never after the synced end, and the two
    may coincide. *)
Theorem beat_sync_keeps_order beat_frames start_frame end_frame :
  strictly_increasing beat_frames → start_frame ≤ end_frame →
  (beat_frames ≠ [] →
     ∃ b1 b2, snap_to_beat beat_frames start_frame = Ok b1
            ∧ snap_to_beat beat_frames end_frame = Ok b2)
  ∧ (∀ b1 b2, snap_to_beat beat_frames start_frame = Ok b1 →
              snap_to_beat beat_frames end_frame = Ok b2 → b1 ≤ b2)
  ∧ (∃ grid s e b, strictly_increasing grid ∧ s < e
                 ∧ snap_to_beat grid s = Ok b ∧ snap_to_beat grid e = Ok b).
Proof.
  intros Hinc Hle. split; [|split].
  - intros Hne.
    destruct (snap_to_beat_is_Ok beat_frames start_frame Hne) as [b1 ->].
    destruct (snap_to_beat_is_Ok beat_frames end_frame Hne) as [b2 ->].
    by exists b1, b2.
  - intros b1 b2. by apply snap_to_beat_monotone.
  - exists [10; 20], 7, 12, 10. split; [|by repeat split].
    intros [|[|i]] [|[|j]] a b Ha Hb Hlt; simplify_eq/=; lia.
Qed.

Lemma beat_sync_keeps_order_witness :
  strictly_increasing [4; 8; 12] ∧ 5 ≤ 9 ∧
  ∀ b1 b2, snap_to_beat [4; 8; 12] 5 = Ok b1 →
           snap_to_beat [4; 8; 12] 9 = Ok b2 → b1 ≤ b2.
Proof.
  assert (strictly_increasing [4; 8; 12]) as Hinc.
  { intros [|[|[|i]]] [|[|[|j]]] a b Ha Hb Hlt;
      try discriminate Ha; try discriminate Hb;
      injection Ha as <-; injection Hb as <-; lia. }
  split; [exact Hinc|]. split; [lia|].
  apply (beat_sync_keeps_order [4; 8; 12] 5 9 Hinc). lia.
Defined.

(** ** The collapse check after beat synchronisation *)

(** In [python/looper.py] a candidate whose frames snap to one beat is
    refused. *)
Lemma python_refuses_collapsed_loop y sr min_duration b :
  synced_loop_frames y sr min_duration = Ok (b, b) →
  PythonLooper.find_loop_points y sr min_duration
  = Raise "Loop points are too close to sync to the beat.".
Proof.
  intros H. unfold PythonLooper.find_loop_points. rewrite H. simpl.
  by rewrite decide_True.
Qed.

(** A fully masked matrix sends both frames to 0, hence to one beat:
    [python/looper.py] then fails, at the beat tracker, at [np.argmin] or
    at its collapse check. *)
Lemma python_fails_on_all_zero_matrix y sr min_duration n (m : matrix) :
  recurrence_matrix y = Ok m → square n m → (0 < n)%nat →
  (∀ i j x, entry (mask (time_to_frames min_duration sr) m) i j = Some x →
            (x <= 0)%Q) →
  ∃ msg, PythonLooper.find_loop_points y sr min_duration = Raise msg.
Proof.
  intros Hm Hsq Hn Hzero.
  unfold PythonLooper.find_loop_points, synced_loop_frames.
  rewrite Hm. simpl.
  rewrite (search_origin_of_nonpositive n);
    [|by apply mask_square|done|done|by apply (mask_entry_diagonal n)].
  simpl.
  destruct (beat_track y) as [beat_frames|msg]; [|by exists msg]. simpl.
  destruct (snap_to_beat beat_frames (Z.of_nat 0)) as [b|msg];
    [|by exists msg].
  simpl. rewrite decide_True by done. by eexists.
Qed.

(** With a single detected beat every candidate collapses: the three
    scripts then disagree on the result. *)
Lemma single_beat_collapses y sr min_duration n (m : matrix) b :
  recurrence_matrix y = Ok m → square n m → (0 < n)%nat →
  beat_track y = Ok [b] →
  synced_loop_frames y sr min_duration = Ok (b, b)
  ∧ PythonLooper.find_loop_points y sr min_duration
    = Raise "Loop points are too close to sync to the beat."
  ∧ PluginLooper.find_loop_points y sr min_duration
    = LoopLine (frames_to_time b sr) (frames_to_time b sr).
Proof.
  intros Hm Hsq Hn Hbeats.
  assert (synced_loop_frames y sr min_duration = Ok (b, b)) as Hsync.
  { unfold synced_loop_frames. rewrite Hm. simpl.
    destruct (search_loop_frames_spec n (mask (time_to_frames min_duration sr) m))
      as (r & c & v & -> & _); [by apply mask_square|done|].
    simpl. by rewrite Hbeats. }
  split; [done|]. split; [by apply (python_refuses_collapsed_loop _ _ _ b)|].
  unfold PluginLooper.find_loop_points. by rewrite Hsync.
Qed.

(** C5 (the defect). On [collapsing_track] the candidate [(0, 2)] snaps to
    the beat 1 at both ends. [python/looper.py] raises its collapse error,
    whereas [plugin/looper.py] and [analysis/looper.py] return the
    zero-length loop as a success. *)
Theorem collapsed_loop_returned_by_plugin :
  search_loop_frames (mask (time_to_frames (5 # 100) analysis_sr)
                           [[0; 0; 1]; [0; 0; 0]; [1; 0; 0]]%Q)
  = Ok (0%nat, 2%nat)
  ∧ snap_to_beat [1] 0 = Ok 1 ∧ snap_to_beat [1] 2 = Ok 1
  ∧ PythonLooper.find_loop_points collapsing_track analysis_sr (5 # 100)
    = Raise "Loop points are too close to sync to the beat."
  ∧ PluginLooper.find_loop_points collapsing_track analysis_sr (5 # 100)
    = LoopLine (512 # 22050) (512 # 22050)
  ∧ AnalysisLooper.find_loop_points_from_data collapsing_track analysis_sr
    = AnalysisLooper.Success (512 # 22050) (512 # 22050).
Proof. repeat split; vm_compute; reflexivity. Qed.

(** ** The default minimum loop duration *)

Lemma py_max_Qmax a b : py_max a b = Qmax a b.
Proof.
  unfold py_max, Qmax, GenericMinMax.gmax.
  destruct (Qltb a b) eqn:E.
  - apply Qltb_lt in E. destruct (a ?= b)%Q eqn:C; try done; exfalso.
    + apply Qeq_alt in C. rewrite C in E. by apply (Qlt_irrefl b).
    + apply Qgt_alt in C. by apply (Qlt_irrefl a), (Qlt_trans _ b).
  - apply Qltb_ge in E. destruct (a ?= b)%Q eqn:C; try done.
    apply Qlt_alt in C. exfalso. by apply (Qlt_not_le a b).
Qed.

(** The default of each script, as a formula of the loaded duration. *)
Lemma min_loop_duration_by_script (total_duration : Q) :
  (20 <= total_duration)%Q →
  PythonLooper.min_loop_duration total_duration
    = Qmax 15 (total_duration * (15 # 100))
  ∧ PluginLooper.min_loop_duration total_duration
    = (total_duration * (15 # 100))%Q
  ∧ (AnalysisLooper.min_duration total_duration
     == Qmax 10 (total_duration * (15 # 100)))%Q
  ∧ ((PluginLooper.min_loop_duration total_duration
      == Qmax 15 (total_duration * (15 # 100)))%Q ↔ (100 <= total_duration)%Q)
  ∧ ((AnalysisLooper.min_duration total_duration
      == Qmax 15 (total_duration * (15 # 100)))%Q ↔ (100 <= total_duration)%Q).
Proof.
  intros Hlong.
  assert (AnalysisLooper.min_duration total_duration
          == Qmax 10 (total_duration * (15 # 100)))%Q as Hanalysis.
  { unfold AnalysisLooper.min_duration.
    destruct (Q.max_spec 10 (total_duration * (15 # 100))) as [[? ->]|[? ->]];
      destruct (Qltb (total_duration * (15 # 100)) 10) eqn:E;
      try apply Qltb_lt in E; try apply Qltb_ge in E; lra. }
  split; [apply py_max_Qmax|]. split; [done|]. split; [done|].
  split.
  - unfold PluginLooper.min_loop_duration.
    destruct (Q.max_spec 15 (total_duration * (15 # 100))) as [[? ->]|[? ->]];
      split; intros; lra.
  - rewrite Hanalysis.
    destruct (Q.max_spec 15 (total_duration * (15 # 100))) as [[? ->]|[? ->]];
      destruct (Q.max_spec 10 (total_duration * (15 # 100))) as [[? ->]|[? ->]];
      split; intros; lra.
Qed.

(** ** Reporting of failures *)

(** C7 (amended). In [python/looper.py] a failing run (an exception while
    loading or analysing, a track under 20 seconds, loop points that are
    not ordered) writes the single line ["Error: <message>"] on the error
    channel, nothing on the success channel, and ends with status 1; a
    run that does not fail writes one loop line on the success channel,
    with [loop_start < loop_end], and ends with status 0. In
    [plugin/looper.py] nothing is ever written on the error channel: every
    run writes one line on standard output, which is a loop line, the
    usage text, or a message prefixed ["Error: "]. *)
Theorem failure_reporting_by_script :
  (∀ w,
     (is_ok (PythonLooper.analyse w) = false →
        stdout (PythonLooper.main w) = []
        ∧ (∃ msg, PythonLooper.analyse w = Raise msg
                ∧ stderr (PythonLooper.main w) = [TextLine ("Error: " +:+ msg)])
        ∧ status (PythonLooper.main w) = 1)
     ∧ (is_ok (PythonLooper.analyse w) = true →
        ∃ loop_start loop_end,
          stdout (PythonLooper.main w) = [LoopLine loop_start loop_end]
          ∧ stderr (PythonLooper.main w) = []
          ∧ status (PythonLooper.main w) = 0
          ∧ (loop_start < loop_end)%Q))
  ∧ (∀ argv w,
       stderr (PluginLooper.main argv w) = []
       ∧ ∃ l, stdout (PluginLooper.main argv w) = [l]
            ∧ ((∃ loop_start loop_end, l = LoopLine loop_start loop_end)
               ∨ l = PluginLooper.usage ∨ error_line l)).
Proof.
  split.
  - intros w. split.
    + intros Hfail. unfold PythonLooper.main.
      destruct (PythonLooper.analyse w) as [[a b]|msg]; [done|].
      split; [done|]. split; [by exists msg|done].
    + intros Hok. unfold PythonLooper.main.
      destruct (PythonLooper.analyse w) as [[a b]|msg] eqn:Hrun; [|done].
      exists a, b. repeat split.
      unfold PythonLooper.analyse in Hrun.
      destruct (load w) as [y|]; [|done]. simpl in Hrun.
      destruct (Qltb _ 20); [done|].
      destruct (PythonLooper.find_loop_points _ _ _) as [[s e]|]; [|done].
      simpl in Hrun. destruct (Qltb s e) eqn:Hord; [|done].
      injection Hrun as <- <-. by apply Qltb_lt.
  - intros argv w. unfold PluginLooper.main.
    destruct argv as [|a0 [|file_path [|a2 argv]]];
      try (split; [done|]; eexists; split; [done|]; by right; left).
    destruct (file_exists w); simpl.
    + destruct (load w) as [y|e].
      * destruct (Qltb _ 20).
        -- split; [done|]. eexists. split; [done|]. right; right. by eexists.
        -- split; [done|]. eexists. split; [done|].
           unfold PluginLooper.find_loop_points.
           destruct (synced_loop_frames _ _ _) as [[b1 b2]|e].
           ++ left. by do 2 eexists.
           ++ right; right. by eexists.
      * split; [done|]. eexists. split; [done|]. right; right. by eexists.
    + split; [done|]. eexists. split; [done|]. right; right. by eexists.
Qed.

Lemma failure_reporting_by_script_witness :
  is_ok (PythonLooper.analyse short_track) = false ∧
  stdout (PythonLooper.main short_track) = [] ∧
  status (PythonLooper.main short_track) = 1.
Proof.
  assert (is_ok (PythonLooper.analyse short_track) = false) as Hfail
    by reflexivity.
  split; [exact Hfail|].
  destruct failure_reporting_by_script as [Hpython _].
  destruct (Hpython short_track) as [Hraise _].
  destruct (Hraise Hfail) as (Hout & _ & Hstatus).
  split; [exact Hout|exact Hstatus].
Defined.

(** The claim as written fails for [plugin/looper.py]: the failure of a
    track that is too short is written on standard output, and the error
    channel stays empty. *)
Lemma plugin_failure_on_stdout_counterexample :
  PluginLooper.main ["looper.py"; "track.wav"] short_track
  = {| stdout := [TextLine "Error: Audio file too short for analysis"];
       stderr := [];
       status := 1 |}.
Proof. reflexivity. Qed.

(** ** Slices and durations *)

Lemma py_slice_within {A : Type} (l : list A) lo hi :
  0 ≤ lo ≤ hi → hi ≤ Z.of_nat (length l) →
  py_slice l lo hi = take (Z.to_nat (hi - lo)) (drop (Z.to_nat lo) l).
Proof.
  intros Hlo Hhi. unfold py_slice, slice_bound.
  destruct (Z.ltb_spec lo 0); [lia|]. destruct (Z.ltb_spec hi 0); [lia|].
  by rewrite !Z.min_l by lia.
Qed.

Lemma py_slice_prefix {A : Type} (l : list A) hi :
  0 ≤ hi → py_slice l 0 hi = take (Z.to_nat hi) l.
Proof.
  intros Hhi. unfold py_slice, slice_bound. simpl.
  destruct (Z.ltb_spec hi 0); [lia|].
  rewrite (Z.min_l 0) by lia. rewrite Z.sub_0_r.
  change (drop (Z.to_nat 0) l) with l.
  destruct (Z.min_spec hi (Z.of_nat (length l))) as [[? ->]|[? ->]]; [done|].
  rewrite Nat2Z.id. rewrite take_ge by lia. rewrite take_ge by lia. done.
Qed.

Lemma py_slice_within_length {A : Type} (l : list A) lo hi :
  0 ≤ lo ≤ hi → hi ≤ Z.of_nat (length l) →
  Z.of_nat (length (py_slice l lo hi)) = hi - lo.
Proof.
  intros Hlo Hhi. rewrite py_slice_within by done.
  rewrite length_take, length_drop. lia.
Qed.

Lemma duration_of_add a b sr :
  (duration_of (a + b) sr == duration_of a sr + duration_of b sr)%Q.
Proof.
  unfold duration_of, Qeq, Qplus. simpl. rewrite Nat2Z.inj_add. nia.
Qed.

Lemma duration_of_le a b sr :
  (duration_of a sr <= duration_of b sr)%Q ↔ (a ≤ b)%nat.
Proof.
  unfold duration_of, Qle. simpl.
  rewrite <- Z.mul_le_mono_pos_r by lia. lia.
Qed.

(** A rational time is reached once enough samples are played. *)
Lemma duration_of_reaches (t : Q) sr :
  (t <= duration_of (Z.to_nat (Qceiling (t * inject_Z (Z.pos sr)))) sr)%Q.
Proof.
  pose proof (Qle_ceiling (t * inject_Z (Z.pos sr))) as Hceil.
  set (c := Qceiling _) in *.
  assert (inject_Z c <= inject_Z (Z.of_nat (Z.to_nat c)))%Q as Hnat.
  { rewrite <- Zle_Qle. lia. }
  pose proof (Qle_trans _ _ _ Hceil Hnat) as Hle.
  unfold duration_of. revert Hle. clear.
  generalize (Z.of_nat (Z.to_nat c)) as x. intros x. destruct t as [p q].
  unfold Qle, Qmult, inject_Z. simpl. rewrite Pos.mul_1_r. lia.
Qed.

(** ** The extender's loop *)

Section ExtenderLoop.
Context {A : Type}.
Implicit Types (y segment extended_audio out : list A) (sr : positive) (target : Q).

Lemma copies_S k segment :
  Extender.copies (S k) segment = segment ++ Extender.copies k segment.
Proof. done. Qed.

Lemma copies_length k segment :
  length (Extender.copies k segment) = (k * length segment)%nat.
Proof.
  induction k as [|k IH]; [done|].
  rewrite copies_S, length_app, IH. lia.
Qed.

Lemma get_duration_extended extended_audio k segment sr :
  Extender.get_duration (extended_audio ++ Extender.copies k segment) sr
  = duration_of (length extended_audio + k * length segment) sr.
Proof.
  unfold Extender.get_duration. by rewrite length_app, copies_length.
Qed.

(** Whatever the loop returns is the initial buffer followed by whole
    copies of the segment. *)
Lemma extend_loop_shape fuel sr target segment extended_audio current_duration out :
  Extender.extend_loop fuel sr target segment extended_audio current_duration
  = Some out →
  ∃ k, (k ≤ fuel)%nat ∧ out = extended_audio ++ Extender.copies k segment.
Proof.
  revert extended_audio current_duration.
  induction fuel as [|fuel IH]; intros extended_audio current_duration; simpl.
  - destruct (Qltb current_duration target); [done|]. intros [= <-].
    exists 0%nat. split; [done|]. unfold Extender.copies. simpl.
    by rewrite app_nil_r.
  - destruct (Qltb current_duration target).
    + intros Hrun. apply IH in Hrun as (k & Hk & ->).
      exists (S k). split; [lia|]. by rewrite copies_S, app_assoc.
    + intros [= <-]. exists 0%nat. split; [lia|]. unfold Extender.copies. simpl.
      by rewrite app_nil_r.
Qed.

(** More fuel does not change a result. *)
Lemma extend_loop_fuel_mono fuel fuel' sr target segment extended_audio
    current_duration out :
  (fuel ≤ fuel')%nat →
  Extender.extend_loop fuel sr target segment extended_audio current_duration
  = Some out →
  Extender.extend_loop fuel' sr target segment extended_audio current_duration
  = Some out.
Proof.
  revert fuel' extended_audio current_duration.
  induction fuel as [|fuel IH]; intros fuel' extended_audio current_duration Hle;
    simpl.
  - destruct (Qltb current_duration target) eqn:E; [done|].
    intros [= <-]. destruct fuel'; simpl; by rewrite E.
  - destruct (Qltb current_duration target) eqn:E.
    + destruct fuel' as [|fuel']; [lia|]. simpl. rewrite E.
      apply IH. lia.
    + intros [= <-]. destruct fuel'; simpl; by rewrite E.
Qed.

Lemma extend_loop_deterministic fuel fuel' sr target segment extended_audio
    current_duration out out' :
  Extender.extend_loop fuel sr target segment extended_audio current_duration
  = Some out →
  Extender.extend_loop fuel' sr target segment extended_audio current_duration
  = Some out' →
  out = out'.
Proof.
  intros H H'.
  apply (extend_loop_fuel_mono _ (Nat.max fuel fuel')) in H; [|lia].
  apply (extend_loop_fuel_mono _ (Nat.max fuel fuel')) in H'; [|lia].
  congruence.
Qed.

(** With enough fuel the loop stops after the least number of copies that
    reaches the target. *)
Lemma extend_loop_least fuel sr target segment extended_audio :
  (target <= duration_of (length extended_audio + fuel * length segment) sr)%Q →
  ∃ k, (k ≤ fuel)%nat
    ∧ Extender.extend_loop fuel sr target segment extended_audio
        (Extender.get_duration extended_audio sr)
      = Some (extended_audio ++ Extender.copies k segment)
    ∧ (target
       <= Extender.get_duration (extended_audio ++ Extender.copies k segment) sr)%Q
    ∧ ∀ j, (j < k)%nat →
        (Extender.get_duration (extended_audio ++ Extender.copies j segment) sr
         < target)%Q.
Proof.
  revert extended_audio.
  induction fuel as [|fuel IH]; intros extended_audio Hreach; simpl.
  - assert (Qltb (Extender.get_duration extended_audio sr) target = false) as ->.
    { apply Qltb_ge. by rewrite Nat.add_0_r in Hreach. }
    exists 0%nat. unfold Extender.copies. simpl. rewrite app_nil_r.
    split; [done|]. split; [done|]. split; [|intros; lia].
    by rewrite Nat.add_0_r in Hreach.
  - destruct (Qltb (Extender.get_duration extended_audio sr) target) eqn:E.
    + destruct (IH (extended_audio ++ segment)) as (k & Hk & Hrun & Hge & Hleast).
      { rewrite length_app.
        by replace (length extended_audio + length segment + fuel * length segment)%nat
          with (length extended_audio + S fuel * length segment)%nat by lia. }
      exists (S k). rewrite copies_S, app_assoc.
      split; [lia|]. split; [done|]. split; [done|].
      intros [|j] Hj.
      * unfold Extender.copies. simpl. rewrite app_nil_r. by apply Qltb_lt.
      * rewrite copies_S, app_assoc. apply Hleast. lia.
    + exists 0%nat. unfold Extender.copies. simpl. rewrite app_nil_r.
      split; [lia|]. split; [done|]. split; [by apply Qltb_ge|intros; lia].
Qed.

(** With an empty segment the loop cannot make progress. *)
Lemma extend_loop_empty_segment fuel sr target extended_audio :
  (Extender.get_duration extended_audio sr < target)%Q →
  Extender.extend_loop fuel sr target [] extended_audio
    (Extender.get_duration extended_audio sr) = None.
Proof.
  intros Hshort. apply Qltb_lt in Hshort.
  induction fuel as [|fuel IH]; simpl; rewrite Hshort; [done|].
  by rewrite app_nil_r.
Qed.

(** A nonempty segment lets the loop reach any target. *)
Lemma extend_loop_terminates sr target segment extended_audio :
  segment ≠ [] →
  ∃ fuel out,
    Extender.extend_loop fuel sr target segment extended_audio
      (Extender.get_duration extended_audio sr) = Some out.
Proof.
  intros Hseg.
  set (fuel := Z.to_nat (Qceiling (target * inject_Z (Z.pos sr)))).
  destruct (extend_loop_least fuel sr target segment extended_audio)
    as (k & _ & Hrun & _).
  - eapply Qle_trans; [apply duration_of_reaches|].
    apply duration_of_le. fold fuel.
    assert (0 < length segment)%nat by (destruct segment; [done|simpl; lia]).
    nia.
  - by exists fuel, (extended_audio ++ Extender.copies k segment).
Qed.

End ExtenderLoop.

(** ** Claims on the extender *)

Section ExtenderClaims.
Context {A : Type}.
Implicit Types (y out : list A) (sr : positive).

(** C3 (amended). For every buffer, loop points inside the buffer with
    [0 <= loop_start_samples < loop_end_samples <= len(y)], and target
    duration, the extender returns the prefix [y[:loop_end_samples]]
    followed by [k] whole copies of [y[loop_start_samples:loop_end_samples]],
    where [k] is the least number of copies whose duration reaches the
    target. When at least one copy is appended the output exceeds the target
    by less than one loop length; when the target is at most the prefix
    duration, no copy is appended and exactly the prefix is returned. *)
Theorem extend_track_whole_copies y sr (loop_start loop_end target : Q) :
  let loop_start_samples := time_to_samples loop_start sr in
  let loop_end_samples := time_to_samples loop_end sr in
  let prefix := py_slice y 0 loop_end_samples in
  let loop_segment := py_slice y loop_start_samples loop_end_samples in
  0 ≤ loop_start_samples →
  loop_start_samples < loop_end_samples →
  loop_end_samples ≤ Z.of_nat (length y) →
  ∃ k,
    let out := prefix ++ Extender.copies k loop_segment in
    (∃ fuel, Extender.extend_track fuel y sr loop_start loop_end target = Some out)
    ∧ (∀ fuel out',
         Extender.extend_track fuel y sr loop_start loop_end target = Some out' →
         out' = out)
    ∧ (target <= Extender.get_duration out sr)%Q
    ∧ (∀ j, (j < k)%nat →
         (Extender.get_duration (prefix ++ Extender.copies j loop_segment) sr
          < target)%Q)
    ∧ ((0 < k)%nat →
         (Extender.get_duration out sr - target
          < (loop_end_samples - loop_start_samples) # sr)%Q)
    ∧ ((target <= Extender.get_duration prefix sr)%Q → k = 0%nat ∧ out = prefix).
Proof.
  intros s e prefix loop_segment Hs Hse He.
  assert (Z.of_nat (length loop_segment) = e - s) as Hlen
    by (apply py_slice_within_length; lia).
  set (fuel := Z.to_nat (Qceiling (target * inject_Z (Z.pos sr)))).
  destruct (extend_loop_least fuel sr target loop_segment prefix)
    as (k & _ & Hrun & Hge & Hleast).
  { eapply Qle_trans; [apply duration_of_reaches|].
    apply duration_of_le. fold fuel. nia. }
  exists k. cbv zeta.
  split; [by exists fuel|]. split.
  { intros fuel' out' Hrun'. symmetry.
    by eapply extend_loop_deterministic. }
  split; [done|]. split; [done|]. split.
  - intros Hk. destruct k as [|k]; [lia|].
    pose proof (Hleast k (Nat.lt_succ_diag_r k)) as Hbefore.
    rewrite get_duration_extended in *.
    replace (length prefix + S k * length loop_segment)%nat
      with ((length prefix + k * length loop_segment) + length loop_segment)%nat
      by lia.
    rewrite duration_of_add.
    assert (duration_of (length loop_segment) sr == (e - s) # sr)%Q as ->
      by (unfold duration_of; by rewrite Hlen).
    lra.
  - intros Hreached. destruct k as [|k].
    + unfold Extender.copies. simpl. by rewrite app_nil_r.
    + exfalso. pose proof (Hleast 0%nat (Nat.lt_0_succ k)) as Hbefore.
      unfold Extender.copies in Hbefore. simpl in Hbefore.
      rewrite app_nil_r in Hbefore.
      by apply (Qlt_not_le _ _ Hbefore).
Qed.

(** C8 (amended). When [0 <= loop_end_samples <= len(y)], the first
    [loop_end_samples] samples of whatever the extender returns are the
    first [loop_end_samples] samples of the input, for any loop start and
    any target duration; and the extender does return when moreover
    [0 <= loop_start_samples < loop_end_samples]. *)
Theorem extend_track_keeps_prefix y sr (loop_start loop_end target : Q) :
  let loop_start_samples := time_to_samples loop_start sr in
  let loop_end_samples := time_to_samples loop_end sr in
  0 ≤ loop_end_samples →
  loop_end_samples ≤ Z.of_nat (length y) →
  (∀ fuel out,
     Extender.extend_track fuel y sr loop_start loop_end target = Some out →
     py_slice out 0 loop_end_samples = py_slice y 0 loop_end_samples)
  ∧ (0 ≤ loop_start_samples < loop_end_samples →
     ∃ fuel out,
       Extender.extend_track fuel y sr loop_start loop_end target = Some out).
Proof.
  intros s e He Hlen. split.
  - intros fuel out Hrun. unfold Extender.extend_track in Hrun.
    fold e in Hrun.
    apply extend_loop_shape in Hrun as (k & _ & ->).
    rewrite !py_slice_prefix by done.
    rewrite take_app_le by (rewrite length_take; lia).
    by rewrite take_take, Nat.min_id.
  - intros Hs. apply extend_loop_terminates. fold s e. intros Hnil.
    apply (f_equal length) in Hnil.
    pose proof (py_slice_within_length y s e) as Hseg.
    rewrite Hnil in Hseg. simpl in Hseg. lia.
Qed.


End ExtenderClaims.

Lemma extend_track_whole_copies_witness :
  let y := [1; 2; 3; 4] in
  let loop_start_samples := time_to_samples 2 1 in
  let loop_end_samples := time_to_samples 4 1 in
  let prefix := py_slice y 0 loop_end_samples in
  let loop_segment := py_slice y loop_start_samples loop_end_samples in
  0 ≤ loop_start_samples ∧ loop_start_samples < loop_end_samples
  ∧ loop_end_samples ≤ Z.of_nat (length y)
  ∧ ∃ k,
      let out := prefix ++ Extender.copies k loop_segment in
      (∃ fuel, Extender.extend_track fuel y 1 2 4 7 = Some out)
      ∧ (∀ fuel out', Extender.extend_track fuel y 1 2 4 7 = Some out' → out' = out)
      ∧ (7 <= Extender.get_duration out 1)%Q
      ∧ (∀ j, (j < k)%nat →
           (Extender.get_duration (prefix ++ Extender.copies j loop_segment) 1 < 7)%Q)
      ∧ ((0 < k)%nat →
           (Extender.get_duration out 1 - 7
            < (loop_end_samples - loop_start_samples) # 1)%Q)
      ∧ ((7 <= Extender.get_duration prefix 1)%Q → k = 0%nat ∧ out = prefix).
Proof.
  intros y s e prefix loop_segment.
  assert (0 ≤ s) as Hs by (vm_compute; discriminate).
  assert (s < e) as Hse by reflexivity.
  assert (e ≤ Z.of_nat (length y)) as He by (vm_compute; discriminate).
  split; [exact Hs|]. split; [exact Hse|]. split; [exact He|].
  exact (extend_track_whole_copies y 1 2 4 7 Hs Hse He).
Defined.

(** The claim as written fails twice. Inside the buffer, a target far below
    the prefix duration is exceeded by more than one loop length: the
    4-second prefix is returned for a target of 0 and a loop of 2 seconds.
    And with [loop_start_samples < loop_end_samples] beyond the end of the
    buffer the segment is empty and the loop never returns. *)
Lemma extend_track_overshoot_counterexample :
  (time_to_samples 2 1 = 2 ∧ time_to_samples 4 1 = 4
   ∧ (∀ fuel, Extender.extend_track fuel [1; 2; 3; 4] 1 2 4 0 = Some [1; 2; 3; 4])
   ∧ ¬ (Extender.get_duration [1; 2; 3; 4] 1 - 0 < (4 - 2) # 1)%Q)
  ∧ (time_to_samples 5 1 = 5 ∧ time_to_samples 10 1 = 10
     ∧ (Extender.get_duration (py_slice [1; 2] 0 10) 1 < 4)%Q
     ∧ ∀ fuel, Extender.extend_track fuel [1; 2] 1 5 10 4 = None).
Proof.
  split.
  - split; [reflexivity|]. split; [reflexivity|]. split.
    + intros fuel. by apply (extend_loop_fuel_mono 0 fuel); [lia|].
    + by vm_compute.
  - split; [reflexivity|]. split; [reflexivity|]. split; [reflexivity|].
    intros fuel. by apply (extend_loop_empty_segment fuel 1 4 [1; 2]).
Qed.

Lemma extend_track_keeps_prefix_witness :
  let out := [1; 2; 3; 4; 3; 4; 3; 4] in
  0 ≤ time_to_samples 4 1
  ∧ time_to_samples 4 1 ≤ Z.of_nat (length [1; 2; 3; 4])
  ∧ Extender.extend_track 5 [1; 2; 3; 4] 1 2 4 7 = Some out
  ∧ py_slice out 0 (time_to_samples 4 1) = py_slice [1; 2; 3; 4] 0 (time_to_samples 4 1).
Proof.
  intros out.
  assert (0 ≤ time_to_samples 4 1) as He by (vm_compute; discriminate).
  assert (time_to_samples 4 1 ≤ Z.of_nat (length [1; 2; 3; 4])) as Hlen
    by (vm_compute; discriminate).
  assert (Extender.extend_track 5 [1; 2; 3; 4] 1 2 4 7 = Some out) as Hrun
    by reflexivity.
  split; [exact He|]. split; [exact Hlen|]. split; [exact Hrun|].
  destruct (extend_track_keeps_prefix [1; 2; 3; 4] 1 2 4 7 He Hlen) as [Hkeep _].
  exact (Hkeep 5%nat out Hrun).
Defined.

(** The claim as written fails when [loop_end_samples] exceeds the length
    of the buffer: the slice [y[:3]] of a 2-sample buffer is the whole
    buffer, a copy of it is appended, and the first 3 samples of the output
    are no longer the first 3 samples of the input. *)
Lemma extend_track_prefix_counterexample :
  time_to_samples 3 1 = 3
  ∧ (∀ fuel, Extender.extend_track (S fuel) [1; 2] 1 0 3 3 = Some [1; 2; 1; 2])
  ∧ py_slice [1; 2; 1; 2] 0 3 = [1; 2; 1]
  ∧ py_slice [1; 2] 0 3 = [1; 2].
Proof.
  split; [reflexivity|]. split; [|split; reflexivity].
  intros fuel. by apply (extend_loop_fuel_mono 1 (S fuel)); [lia|].
Qed.



(** * Further properties of the scripts *)

(** ** Snapping to the beat grid *)

(** X1. On a grid that is not empty, snapping a frame returns a member of
    the grid; no beat is strictly nearer to the frame, and every beat before
    the returned position is strictly farther. *)
Theorem snap_to_beat_nearest_member beat_frames frame :
  beat_frames ≠ [] →
  ∃ i b, snap_to_beat beat_frames frame = Ok b
       ∧ beat_frames !! i = Some b
       ∧ b ∈ beat_frames
       ∧ (∀ x, x ∈ beat_frames → Z.abs (b - frame) ≤ Z.abs (x - frame))
       ∧ (∀ j x, (j < i)%nat → beat_frames !! j = Some x →
                 Z.abs (b - frame) < Z.abs (x - frame)).
Proof.
  intros Hne. destruct (snap_to_beat_is_Ok beat_frames frame Hne) as [b Hb].
  destruct (snap_to_beat_spec _ _ _ Hb) as (i & Hi & Hmin & Hfirst).
  exists i, b. split; [done|]. split; [done|].
  split; [by eapply list_elem_of_lookup_2|]. split; [|done].
  intros x Hx. apply list_elem_of_lookup in Hx as [j Hj]. by eapply Hmin.
Qed.

Lemma snap_to_beat_nearest_member_witness :
  [4; 8; 12] ≠ [] ∧ snap_to_beat [4; 8; 12] 6 = Ok 4 ∧
  ∃ i b, snap_to_beat [4; 8; 12] 6 = Ok b ∧ [4; 8; 12] !! i = Some b.
Proof.
  assert ([4; 8; 12] ≠ ([] : list Z)) as Hne by discriminate.
  split; [exact Hne|]. split; [reflexivity|].
  destruct (snap_to_beat_nearest_member [4; 8; 12] 6 Hne)
    as (i & b & Hb & Hi & _).
  exists i, b. split; [exact Hb|exact Hi].
Defined.

Lemma snap_to_beat_on_grid beat_frames b :
  b ∈ beat_frames → snap_to_beat beat_frames b = Ok b.
Proof.
  intros Hb.
  destruct (snap_to_beat_is_Ok beat_frames b) as [b' Hb'].
  { intros ->. by apply not_elem_of_nil in Hb. }
  rewrite Hb'. f_equal.
  apply snap_to_beat_spec in Hb' as (i & _ & Hmin & _).
  apply list_elem_of_lookup in Hb as [j Hj].
  specialize (Hmin j b Hj). lia.
Qed.

(** X2. A frame that is itself a beat is left where it is, so snapping is
    idempotent: snapping the result of a snap returns it again. *)
Theorem snap_to_beat_idempotent beat_frames frame b :
  (b ∈ beat_frames → snap_to_beat beat_frames b = Ok b)
  ∧ (snap_to_beat beat_frames frame = Ok b → snap_to_beat beat_frames b = Ok b).
Proof.
  split; [apply snap_to_beat_on_grid|].
  intros Hb. apply snap_to_beat_on_grid.
  apply snap_to_beat_spec in Hb as (i & Hi & _).
  by eapply list_elem_of_lookup_2.
Qed.

Lemma snap_to_beat_idempotent_witness :
  8 ∈ [4; 8; 12] ∧ snap_to_beat [4; 8; 12] 8 = Ok 8.
Proof.
  assert (8 ∈ [4; 8; 12]) as Hin by (apply list_elem_of_In; simpl; tauto).
  split; [exact Hin|].
  destruct (snap_to_beat_idempotent [4; 8; 12] 0 8) as [Hgrid _].
  exact (Hgrid Hin).
Defined.

(** ** The brightest cell *)

Lemma search_loop_frames_ordered (m : matrix) start_frame end_frame :
  search_loop_frames m = Ok (start_frame, end_frame) →
  (start_frame ≤ end_frame)%nat.
Proof.
  unfold search_loop_frames. destruct (argmax _) as [idx|]; [|done]. simpl.
  intros [= <- <-]. lia.
Qed.

(** X3. On a nonempty square matrix the search returns the coordinates,
    smaller first, of the first cell in row-major order that holds the
    maximum: no cell is greater, and every cell of an earlier row, or of the
    same row and an earlier column, is strictly smaller. *)
Theorem search_returns_first_maximum n (m : matrix) :
  square n m → (0 < n)%nat →
  ∃ row col v,
    search_loop_frames m = Ok (Nat.min col row, Nat.max col row)
    ∧ entry m row col = Some v
    ∧ (∀ i j x, entry m i j = Some x → (x <= v)%Q)
    ∧ (∀ i j x, (i < row ∨ (i = row ∧ j < col))%nat →
                entry m i j = Some x → (x < v)%Q).
Proof.
  intros Hsq Hn.
  destruct (search_loop_frames_spec n m Hsq Hn)
    as (r & c & v & Hrun & Hr & Hc & Hv & Hmax & Hfirst).
  exists r, c, v. split; [done|]. split; [done|]. split; [done|].
  intros i j x Hbefore Hx.
  destruct (entry_is_Some_lt n m i j Hsq) as [Hi Hj]; [by eexists|].
  apply (Hfirst i j); [done| |done]. nia.
Qed.

Lemma search_returns_first_maximum_witness :
  let m := [[0; 3]; [3; 1]]%Q in
  square 2 m ∧ (0 < 2)%nat ∧
  ∃ row col v,
    search_loop_frames m = Ok (Nat.min col row, Nat.max col row)
    ∧ entry m row col = Some v.
Proof.
  intros m.
  assert (square 2 m) as Hsq by (split; [reflexivity|repeat constructor]).
  assert (0 < 2)%nat as Hn by lia.
  split; [exact Hsq|]. split; [exact Hn|].
  destruct (search_returns_first_maximum 2 m Hsq Hn)
    as (row & col & v & Hrun & Hv & _).
  exists row, col, v. split; [exact Hrun|exact Hv].
Defined.

(** X4. When the masked matrix has a positive entry, the frames returned by
    the search are at least [min_loop_frames] apart, and at least one frame
    apart whatever [min_loop_frames] is. *)
Theorem search_respects_min_loop_frames n (similarity_matrix : matrix)
    min_loop_frames start_frame end_frame :
  square n similarity_matrix →
  (∃ i j x, entry (mask min_loop_frames similarity_matrix) i j = Some x
            ∧ (0 < x)%Q) →
  search_loop_frames (mask min_loop_frames similarity_matrix)
  = Ok (start_frame, end_frame) →
  min_loop_frames ≤ Z.of_nat end_frame - Z.of_nat start_frame
  ∧ 1 ≤ Z.of_nat end_frame - Z.of_nat start_frame.
Proof.
  intros Hsq (i & j & x & Hx & Hpos) Hrun.
  pose proof (mask_square n _ min_loop_frames Hsq) as Hsq'.
  destruct (entry_is_Some_lt n _ i j Hsq') as [Hi _]; [by eexists|].
  destruct (search_loop_frames_spec n _ Hsq') as
    (r & c & v & Hrun' & Hr & Hc & Hv & Hmax & _); [lia|].
  rewrite Hrun' in Hrun. injection Hrun as <- <-.
  rewrite (mask_entry n) in Hv by done.
  destruct (decide (r = c ∨ Z.abs (Z.of_nat r - Z.of_nat c) < min_loop_frames))
    as [Hband|Hfar].
  - injection Hv as <-. exfalso.
    apply (Qlt_not_le _ _ Hpos). by eapply Hmax.
  - lia.
Qed.

Lemma search_respects_min_loop_frames_witness :
  let m := [[0; 0; 1]; [0; 0; 0]; [1; 0; 0]]%Q in
  square 3 m
  ∧ (∃ i j x, entry (mask 2 m) i j = Some x ∧ (0 < x)%Q)
  ∧ search_loop_frames (mask 2 m) = Ok (0%nat, 2%nat)
  ∧ 2 ≤ Z.of_nat 2 - Z.of_nat 0.
Proof.
  intros m.
  assert (square 3 m) as Hsq by (split; [reflexivity|repeat constructor]).
  assert (∃ i j x, entry (mask 2 m) i j = Some x ∧ (0 < x)%Q) as Hpos
    by (exists 0%nat, 2%nat, 1%Q; split; reflexivity).
  assert (search_loop_frames (mask 2 m) = Ok (0%nat, 2%nat)) as Hrun
    by reflexivity.
  split; [exact Hsq|]. split; [exact Hpos|]. split; [exact Hrun|].
  exact (proj1 (search_respects_min_loop_frames 3 m 2 0 2 Hsq Hpos Hrun)).
Defined.

Lemma mask_fully n (m : matrix) min_loop_frames i j :
  square n m → Z.of_nat n ≤ min_loop_frames → (i < n)%nat → (j < n)%nat →
  entry (mask min_loop_frames m) i j = Some 0%Q.
Proof.
  intros Hsq Hall Hi Hj. rewrite (mask_entry n) by done.
  rewrite decide_True; [done|]. lia.
Qed.

(** X5. When [min_loop_frames] reaches the number of frames, every cell of
    the masked matrix is 0 and the search, far from failing, returns the
    pair [(0, 0)]. *)
Theorem mask_collapses_short_track n (similarity_matrix : matrix) min_loop_frames :
  square n similarity_matrix → (0 < n)%nat → Z.of_nat n ≤ min_loop_frames →
  (∀ i j, (i < n)%nat → (j < n)%nat →
     entry (mask min_loop_frames similarity_matrix) i j = Some 0%Q)
  ∧ search_loop_frames (mask min_loop_frames similarity_matrix)
    = Ok (0%nat, 0%nat).
Proof.
  intros Hsq Hn Hall. split; [intros i j; by apply mask_fully|].
  apply (search_origin_of_nonpositive n); [by apply mask_square|done| |].
  - intros i j x Hx.
    destruct (entry_is_Some_lt n (mask min_loop_frames similarity_matrix) i j)
      as [Hi Hj]; [by apply mask_square|by eexists|].
    rewrite (mask_fully n) in Hx by done. injection Hx as <-. apply Qle_refl.
  - by apply (mask_fully n).
Qed.

Lemma mask_collapses_short_track_witness :
  let m := [[1; 2]; [3; 4]]%Q in
  square 2 m ∧ (0 < 2)%nat ∧ Z.of_nat 2 ≤ 2 ∧
  search_loop_frames (mask 2 m) = Ok (0%nat, 0%nat).
Proof.
  intros m.
  assert (square 2 m) as Hsq by (split; [reflexivity|repeat constructor]).
  assert (0 < 2)%nat as Hn by lia.
  assert (Z.of_nat 2 ≤ 2) as Hall by (simpl; lia).
  split; [exact Hsq|]. split; [exact Hn|]. split; [exact Hall|].
  exact (proj2 (mask_collapses_short_track 2 m 2 Hsq Hn Hall)).
Defined.

(** ** Algebra of the mask *)

Lemma matrix_ext n (a b : matrix) :
  square n a → square n b →
  (∀ i j, (i < n)%nat → (j < n)%nat → entry a i j = entry b i j) →
  a = b.
Proof.
  intros [Hla Hra] [Hlb Hrb] Hcells.
  apply list_eq. intros i.
  destruct (decide (i < n)%nat) as [Hi|Hi].
  - destruct (lookup_lt_is_Some_2 a i) as [ra Ha]; [lia|].
    destruct (lookup_lt_is_Some_2 b i) as [rb Hb]; [lia|].
    rewrite Ha, Hb. f_equal. apply list_eq. intros j.
    rewrite Forall_lookup in Hra, Hrb.
    pose proof (Hra i ra Ha) as Hlen_a. pose proof (Hrb i rb Hb) as Hlen_b.
    destruct (decide (j < n)%nat) as [Hj|Hj].
    + specialize (Hcells i j Hi Hj). unfold entry in Hcells.
      by rewrite Ha, Hb in Hcells.
    + rewrite !lookup_ge_None_2 by lia. done.
  - rewrite !lookup_ge_None_2 by lia. done.
Qed.

(** X6. Masking twice is masking once with the larger bound: in particular
    masking is idempotent, and a matrix masked for a long minimum loop is
    not changed by masking it again for a shorter one. *)
Theorem mask_mask n (m : matrix) c1 c2 :
  square n m → mask c1 (mask c2 m) = mask (Z.max c1 c2) m.
Proof.
  intros Hsq.
  apply (matrix_ext n); [by do 2 apply mask_square|by apply mask_square|].
  intros i j Hi Hj.
  rewrite (mask_entry n) by (done || by apply mask_square).
  rewrite !(mask_entry n) by done.
  repeat case_decide; try done; exfalso; lia.
Qed.

Lemma mask_mask_witness :
  let m := [[1; 2; 3]; [4; 5; 6]; [7; 8; 9]]%Q in
  square 3 m ∧ mask 1 (mask 2 m) = mask 2 m.
Proof.
  intros m.
  assert (square 3 m) as Hsq by (split; [reflexivity|repeat constructor]).
  split; [exact Hsq|]. exact (mask_mask 3 m 1 2 Hsq).
Defined.

(** X7. Masking keeps a symmetric matrix symmetric: the band it clears is
    the same on both sides of the diagonal. *)
Theorem mask_symmetric n (m : matrix) min_loop_frames :
  square n m →
  (∀ i j, (i < n)%nat → (j < n)%nat → entry m i j = entry m j i) →
  ∀ i j, (i < n)%nat → (j < n)%nat →
    entry (mask min_loop_frames m) i j = entry (mask min_loop_frames m) j i.
Proof.
  intros Hsq Hsym i j Hi Hj. rewrite !(mask_entry n) by done.
  rewrite (Hsym i j) by done.
  repeat case_decide; try done; exfalso; lia.
Qed.

Lemma mask_symmetric_witness :
  let m := [[1; 2; 3]; [2; 5; 6]; [3; 6; 9]]%Q in
  square 3 m
  ∧ (∀ i j, (i < 3)%nat → (j < 3)%nat → entry m i j = entry m j i)
  ∧ entry (mask 1 m) 0 2 = entry (mask 1 m) 2 0.
Proof.
  intros m.
  assert (square 3 m) as Hsq by (split; [reflexivity|repeat constructor]).
  assert (∀ i j, (i < 3)%nat → (j < 3)%nat → entry m i j = entry m j i) as Hsym.
  { intros [|[|[|i]]] [|[|[|j]]] Hi Hj; try reflexivity; lia. }
  split; [exact Hsq|]. split; [exact Hsym|].
  apply (mask_symmetric 3 m 1 Hsq Hsym); lia.
Defined.

(** ** Results of [find_loop_points] *)

Lemma frames_to_time_lt sr b1 b2 :
  b1 < b2 → (frames_to_time b1 sr < frames_to_time b2 sr)%Q.
Proof.
  intros Hlt. unfold frames_to_time, hop_length, Qlt. simpl.
  apply Z.mul_lt_mono_pos_r; lia.
Qed.

(** What a successful run of the shared statements went through. *)
Lemma synced_loop_frames_inv y sr min_duration b1 b2 :
  synced_loop_frames y sr min_duration = Ok (b1, b2) →
  ∃ m beat_frames start_frame end_frame,
    recurrence_matrix y = Ok m
    ∧ search_loop_frames (mask (time_to_frames min_duration sr) m)
      = Ok (start_frame, end_frame)
    ∧ beat_track y = Ok beat_frames
    ∧ snap_to_beat beat_frames (Z.of_nat start_frame) = Ok b1
    ∧ snap_to_beat beat_frames (Z.of_nat end_frame) = Ok b2.
Proof.
  unfold synced_loop_frames.
  destruct (recurrence_matrix y) as [m|]; [|done]. simpl.
  destruct (search_loop_frames _) as [[s e]|] eqn:Hsearch; [|done]. simpl.
  destruct (beat_track y) as [beat_frames|]; [|done]. simpl.
  destruct (snap_to_beat beat_frames (Z.of_nat s)) as [c1|] eqn:H1; [|done].
  simpl.
  destruct (snap_to_beat beat_frames (Z.of_nat e)) as [c2|] eqn:H2; [|done].
  simpl. intros [= <- <-]. by exists m, beat_frames, s, e.
Qed.

Lemma synced_loop_frames_beats y sr min_duration b1 b2 :
  synced_loop_frames y sr min_duration = Ok (b1, b2) →
  ∃ beat_frames,
    beat_track y = Ok beat_frames ∧ b1 ∈ beat_frames ∧ b2 ∈ beat_frames
    ∧ (strictly_increasing beat_frames → b1 ≤ b2).
Proof.
  intros Hrun.
  apply synced_loop_frames_inv in Hrun
    as (m & beat_frames & s & e & _ & Hsearch & Hbeats & H1 & H2).
  exists beat_frames. split; [done|].
  pose proof H1 as H1'. pose proof H2 as H2'.
  apply snap_to_beat_spec in H1' as (i1 & Hi1 & _).
  apply snap_to_beat_spec in H2' as (i2 & Hi2 & _).
  split; [by eapply list_elem_of_lookup_2|].
  split; [by eapply list_elem_of_lookup_2|].
  intros Hinc. apply search_loop_frames_ordered in Hsearch.
  eapply (snap_to_beat_monotone beat_frames (Z.of_nat s) (Z.of_nat e));
    [done|lia|done|done].
Qed.

(** X8. The loop points that [python/looper.py] returns are the times of
    two different detected beats. On a strictly increasing beat grid they
    are ordered, [loop_start < loop_end], so that the last test of the
    script cannot fail: the run succeeds with these loop points. *)
Theorem python_loop_points_are_beats w y loop_start loop_end :
  let total_duration := duration_of (n_samples y) analysis_sr in
  load w = Ok y → (20 <= total_duration)%Q →
  PythonLooper.find_loop_points y analysis_sr
    (PythonLooper.min_loop_duration total_duration) = Ok (loop_start, loop_end) →
  ∃ beat_frames b1 b2,
    beat_track y = Ok beat_frames
    ∧ b1 ∈ beat_frames ∧ b2 ∈ beat_frames ∧ b1 ≠ b2
    ∧ loop_start = frames_to_time b1 analysis_sr
    ∧ loop_end = frames_to_time b2 analysis_sr
    ∧ (strictly_increasing beat_frames →
         (loop_start < loop_end)%Q
         ∧ PythonLooper.analyse w = Ok (loop_start, loop_end)
         ∧ PythonLooper.main w
           = {| stdout := [LoopLine loop_start loop_end]; stderr := [];
                status := 0 |}).
Proof.
  intros total_duration Hload Hlong Hrun.
  unfold PythonLooper.find_loop_points in Hrun.
  destruct (synced_loop_frames _ _ _) as [[b1 b2]|] eqn:Hsync; [|done].
  simpl in Hrun. destruct (decide (b1 = b2)) as [|Hne]; [done|].
  injection Hrun as <- <-.
  destruct (synced_loop_frames_beats _ _ _ _ _ Hsync)
    as (beat_frames & Hbeats & Hb1 & Hb2 & Hord).
  exists beat_frames, b1, b2. repeat (split; [done|]).
  intros Hinc. specialize (Hord Hinc).
  assert (frames_to_time b1 analysis_sr < frames_to_time b2 analysis_sr)%Q
    as Hlt by (apply frames_to_time_lt; lia).
  assert (PythonLooper.analyse w
          = Ok (frames_to_time b1 analysis_sr, frames_to_time b2 analysis_sr))
    as Hanalyse.
  { unfold PythonLooper.analyse. rewrite Hload. simpl.
    fold total_duration.
    apply Qltb_ge in Hlong as ->.
    unfold PythonLooper.find_loop_points. rewrite Hsync. simpl.
    rewrite decide_False by done. simpl.
    by apply Qltb_lt in Hlt as ->. }
  split; [done|]. split; [done|].
  unfold PythonLooper.main. by rewrite Hanalyse.
Qed.

(** *** A track with one bright cell, used to exhibit successful runs *)

Lemma zero_matrix_square n : square n (zero_matrix n).
Proof.
  unfold zero_matrix. split; [by rewrite length_replicate|].
  apply Forall_replicate. by rewrite length_replicate.
Qed.

Lemma zero_matrix_entry n i j :
  (i < n)%nat → (j < n)%nat → entry (zero_matrix n) i j = Some 0%Q.
Proof.
  intros Hi Hj. unfold entry, zero_matrix.
  rewrite lookup_replicate_2 by done. simpl. by rewrite lookup_replicate_2.
Qed.

(** When one cell outside the band is positive and no other cell is, the
    search returns that cell. *)
Lemma search_single_peak n (m : matrix) min_loop_frames r c v :
  square n m → entry m r c = Some v → (0 < v)%Q →
  min_loop_frames ≤ Z.abs (Z.of_nat r - Z.of_nat c) → r ≠ c →
  (∀ i j x, entry m i j = Some x → (i, j) ≠ (r, c) → (x <= 0)%Q) →
  search_loop_frames (mask min_loop_frames m) = Ok (Nat.min c r, Nat.max c r).
Proof.
  intros Hsq Hpeak Hpos Hfar Hne Hothers.
  destruct (entry_is_Some_lt n m r c Hsq) as [Hr Hc]; [by eexists|].
  pose proof (mask_square n m min_loop_frames Hsq) as Hsq'.
  destruct (search_loop_frames_spec n _ Hsq')
    as (r' & c' & v' & -> & Hr' & Hc' & Hv' & Hmax & _); [lia|].
  assert (0 < v')%Q as Hpos'.
  { eapply Qlt_le_trans; [exact Hpos|]. apply (Hmax r c).
    rewrite (mask_entry n) by done. rewrite decide_False; [done|]. lia. }
  rewrite (mask_entry n) in Hv' by done.
  destruct (decide (r' = c' ∨ _)) as [|_].
  { injection Hv' as <-. by apply Qlt_irrefl in Hpos'. }
  destruct (decide ((r', c') = (r, c))) as [[= -> ->]|Hother]; [done|].
  exfalso. apply (Qlt_not_le _ _ Hpos'). by eapply Hothers.
Qed.

Lemma single_peak_entries n r c v :
  (r < n)%nat → (c < n)%nat →
  let m := set_entry r c v (zero_matrix n) in
  square n m ∧ entry m r c = Some v
  ∧ ∀ i j x, entry m i j = Some x → (i, j) ≠ (r, c) → (x <= 0)%Q.
Proof.
  intros Hr Hc m.
  pose proof (zero_matrix_square n) as Hsq.
  split; [by apply set_entry_square|]. split.
  - unfold m. rewrite entry_set_entry, decide_True; [done|].
    split; [done|]. split; [done|]. rewrite zero_matrix_entry by done.
    by eexists.
  - intros i j x Hx Hne. unfold m in Hx. rewrite entry_set_entry in Hx.
    destruct (decide (i = r ∧ j = c ∧ _)) as [(-> & -> & _)|_]; [done|].
    destruct (entry_is_Some_lt n (zero_matrix n) i j Hsq) as [Hi Hj];
      [by eexists|].
    rewrite zero_matrix_entry in Hx by done. injection Hx as <-.
    apply Qle_refl.
Qed.

Lemma synced_single_peak y sr min_duration n (m : matrix) r c v beat_frames b1 b2 :
  recurrence_matrix y = Ok m → square n m →
  entry m r c = Some v → (0 < v)%Q →
  time_to_frames min_duration sr ≤ Z.abs (Z.of_nat r - Z.of_nat c) → r ≠ c →
  (∀ i j x, entry m i j = Some x → (i, j) ≠ (r, c) → (x <= 0)%Q) →
  beat_track y = Ok beat_frames →
  snap_to_beat beat_frames (Z.of_nat (Nat.min c r)) = Ok b1 →
  snap_to_beat beat_frames (Z.of_nat (Nat.max c r)) = Ok b2 →
  synced_loop_frames y sr min_duration = Ok (b1, b2).
Proof.
  intros Hm Hsq Hpeak Hpos Hfar Hne Hothers Hbeats H1 H2.
  unfold synced_loop_frames. rewrite Hm. simpl.
  rewrite (search_single_peak n m _ r c v) by done. simpl.
  rewrite Hbeats. simpl. rewrite H1. simpl. by rewrite H2.
Qed.

Lemma duration_of_441000 :
  duration_of (Z.to_nat 441000) analysis_sr = (441000 # 22050)%Q.
Proof. unfold duration_of. by rewrite Z2Nat.id by lia. Qed.

Lemma peak_track_synced min_duration :
  time_to_frames min_duration analysis_sr ≤ 699 →
  synced_loop_frames peak_track analysis_sr min_duration = Ok (0, 699).
Proof.
  intros Hfar.
  destruct (single_peak_entries 700 0 699 1%Q) as (Hsq & Hpeak & Hothers);
    [lia|lia|].
  apply (synced_single_peak peak_track analysis_sr min_duration 700
           (set_entry 0 699 1%Q (zero_matrix 700)) 0 699 1%Q [0; 699]);
    try done.
Qed.

Lemma peak_track_long :
  (20 <= duration_of (n_samples peak_track) analysis_sr)%Q.
Proof.
  change (n_samples peak_track) with (Z.to_nat 441000).
  rewrite duration_of_441000. unfold Qle. simpl. lia.
Qed.

Lemma strictly_increasing_pair a b : a < b → strictly_increasing [a; b].
Proof.
  intros Hab [|[|i]] [|[|j]] x z Hx Hz Hlt;
    try discriminate Hx; try discriminate Hz; try lia.
  injection Hx as <-. injection Hz as <-. done.
Qed.

Lemma peak_track_python :
  PythonLooper.find_loop_points peak_track analysis_sr
    (PythonLooper.min_loop_duration
       (duration_of (n_samples peak_track) analysis_sr))
  = Ok (frames_to_time 0 analysis_sr, frames_to_time 699 analysis_sr).
Proof.
  change (n_samples peak_track) with (Z.to_nat 441000).
  rewrite duration_of_441000.
  unfold PythonLooper.find_loop_points.
  rewrite peak_track_synced by (by vm_compute).
  reflexivity.
Qed.

Lemma python_loop_points_are_beats_witness :
  load peak_world = Ok peak_track
  ∧ (20 <= duration_of (n_samples peak_track) analysis_sr)%Q
  ∧ PythonLooper.find_loop_points peak_track analysis_sr
      (PythonLooper.min_loop_duration
         (duration_of (n_samples peak_track) analysis_sr))
    = Ok (frames_to_time 0 analysis_sr, frames_to_time 699 analysis_sr)
  ∧ PythonLooper.main peak_world
    = {| stdout := [LoopLine (frames_to_time 0 analysis_sr)
                             (frames_to_time 699 analysis_sr)];
         stderr := []; status := 0 |}.
Proof.
  assert (load peak_world = Ok peak_track) as Hload by reflexivity.
  split; [exact Hload|]. split; [exact peak_track_long|].
  split; [exact peak_track_python|].
  destruct (python_loop_points_are_beats peak_world peak_track _ _
              Hload peak_track_long peak_track_python)
    as (beat_frames & b1 & b2 & Hbeats & _ & _ & _ & _ & _ & Hordered).
  injection Hbeats as <-.
  destruct (Hordered (strictly_increasing_pair 0 699 eq_refl)) as (_ & _ & Hmain).
  exact Hmain.
Defined.

Lemma frames_to_time_le sr b1 b2 :
  b1 ≤ b2 → (frames_to_time b1 sr <= frames_to_time b2 sr)%Q.
Proof.
  intros Hle. unfold frames_to_time, hop_length, Qle. simpl.
  apply Z.mul_le_mono_pos_r; lia.
Qed.

(** X9. Whatever loop [plugin/looper.py] and [analysis/looper.py] return,
    its two ends are times of detected beats; on a strictly increasing beat
    grid they are ordered, [loop_start <= loop_end], possibly equal. *)
Theorem plugin_loop_points_are_beats y sr loop_start loop_end :
  (∀ min_duration,
     PluginLooper.find_loop_points y sr min_duration
     = LoopLine loop_start loop_end →
     ∃ beat_frames b1 b2,
       beat_track y = Ok beat_frames ∧ b1 ∈ beat_frames ∧ b2 ∈ beat_frames
       ∧ loop_start = frames_to_time b1 sr ∧ loop_end = frames_to_time b2 sr
       ∧ (strictly_increasing beat_frames → (loop_start <= loop_end)%Q))
  ∧ (AnalysisLooper.find_loop_points_from_data y sr
     = AnalysisLooper.Success loop_start loop_end →
     ∃ beat_frames b1 b2,
       beat_track y = Ok beat_frames ∧ b1 ∈ beat_frames ∧ b2 ∈ beat_frames
       ∧ loop_start = frames_to_time b1 sr ∧ loop_end = frames_to_time b2 sr
       ∧ (strictly_increasing beat_frames → (loop_start <= loop_end)%Q)).
Proof.
  assert (∀ min_duration b1 b2,
            synced_loop_frames y sr min_duration = Ok (b1, b2) →
            loop_start = frames_to_time b1 sr → loop_end = frames_to_time b2 sr →
            ∃ beat_frames b1 b2,
              beat_track y = Ok beat_frames ∧ b1 ∈ beat_frames ∧ b2 ∈ beat_frames
              ∧ loop_start = frames_to_time b1 sr
              ∧ loop_end = frames_to_time b2 sr
              ∧ (strictly_increasing beat_frames → (loop_start <= loop_end)%Q))
    as Hboth.
  { intros min_duration b1 b2 Hsync -> ->.
    destruct (synced_loop_frames_beats _ _ _ _ _ Hsync)
      as (beat_frames & Hbeats & Hb1 & Hb2 & Hord).
    exists beat_frames, b1, b2. repeat (split; [done|]).
    intros Hinc. by apply frames_to_time_le, Hord. }
  split.
  - intros min_duration. unfold PluginLooper.find_loop_points.
    destruct (synced_loop_frames _ _ _) as [[b1 b2]|] eqn:Hsync; [|done].
    intros [= <- <-]. by eapply Hboth.
  - unfold AnalysisLooper.find_loop_points_from_data.
    destruct (synced_loop_frames _ _ _) as [[b1 b2]|] eqn:Hsync; [|done].
    intros [= <- <-]. by eapply Hboth.
Qed.

Lemma plugin_loop_points_are_beats_witness :
  PluginLooper.find_loop_points collapsing_track analysis_sr (5 # 100)
  = LoopLine (512 # 22050) (512 # 22050)
  ∧ ∃ beat_frames b1 b2,
      beat_track collapsing_track = Ok beat_frames
      ∧ b1 ∈ beat_frames ∧ b2 ∈ beat_frames.
Proof.
  assert (PluginLooper.find_loop_points collapsing_track analysis_sr (5 # 100)
          = LoopLine (512 # 22050) (512 # 22050)) as Hrun by (vm_compute; reflexivity).
  split; [exact Hrun|].
  destruct (plugin_loop_points_are_beats collapsing_track analysis_sr
              (512 # 22050) (512 # 22050)) as [Hplugin _].
  destruct (Hplugin (5 # 100)%Q Hrun) as (beat_frames & b1 & b2 & Hb & H1 & H2 & _).
  exists beat_frames, b1, b2. split; [exact Hb|]. split; [exact H1|exact H2].
Defined.

Lemma synced_without_beats y sr min_duration n (m : matrix) :
  recurrence_matrix y = Ok m → square n m → (0 < n)%nat →
  beat_track y = Ok [] →
  synced_loop_frames y sr min_duration
  = Raise "attempt to get argmin of an empty sequence".
Proof.
  intros Hm Hsq Hn Hbeats. unfold synced_loop_frames. rewrite Hm. simpl.
  destruct (search_loop_frames_spec n (mask (time_to_frames min_duration sr) m))
    as (r & c & v & -> & _); [by apply mask_square|done|].
  simpl. by rewrite Hbeats.
Qed.

(** X10. When the beat tracker detects no beat on a track with at least one
    frame, every script fails with numpy's message for [np.argmin]:
    [python/looper.py] raises it, [plugin/looper.py] returns it as its
    ["Error: "] string and [analysis/looper.py] as its failed status. *)
Theorem no_beat_detected y sr min_duration n (m : matrix) :
  recurrence_matrix y = Ok m → square n m → (0 < n)%nat →
  beat_track y = Ok [] →
  PythonLooper.find_loop_points y sr min_duration
  = Raise "attempt to get argmin of an empty sequence"
  ∧ PluginLooper.find_loop_points y sr min_duration
    = TextLine "Error: attempt to get argmin of an empty sequence"
  ∧ AnalysisLooper.find_loop_points_from_data y sr
    = AnalysisLooper.Failed "attempt to get argmin of an empty sequence".
Proof.
  intros Hm Hsq Hn Hbeats.
  pose proof (λ d, synced_without_beats y sr d n m Hm Hsq Hn Hbeats) as Hsync.
  unfold PythonLooper.find_loop_points, PluginLooper.find_loop_points,
    AnalysisLooper.find_loop_points_from_data.
  by rewrite !Hsync.
Qed.

Lemma no_beat_detected_witness :
  recurrence_matrix beatless_track = Ok (zero_matrix 2)
  ∧ square 2 (zero_matrix 2) ∧ (0 < 2)%nat
  ∧ beat_track beatless_track = Ok []
  ∧ PluginLooper.find_loop_points beatless_track analysis_sr 15
    = TextLine "Error: attempt to get argmin of an empty sequence".
Proof.
  assert (recurrence_matrix beatless_track = Ok (zero_matrix 2)) as Hm
    by reflexivity.
  assert (beat_track beatless_track = Ok []) as Hb by reflexivity.
  assert (0 < 2)%nat as Hn by lia.
  split; [exact Hm|]. split; [exact (zero_matrix_square 2)|].
  split; [exact Hn|]. split; [exact Hb|].
  destruct (no_beat_detected beatless_track analysis_sr 15 2 (zero_matrix 2)
              Hm (zero_matrix_square 2) Hn Hb) as (_ & Hplugin & _).
  exact Hplugin.
Defined.

(** X11. The search raises exactly when the matrix has no cell, with
    numpy's message for [np.argmax]; [find_loop_points] then fails before
    the beat tracker is consulted. *)
Theorem search_raises_iff_empty (m : matrix) :
  (flatten m = [] ↔
   search_loop_frames m = Raise "attempt to get argmax of an empty sequence")
  ∧ (flatten m ≠ [] → ∃ pair, search_loop_frames m = Ok pair)
  ∧ (∀ y sr min_duration,
       recurrence_matrix y = Ok [] →
       PythonLooper.find_loop_points y sr min_duration
       = Raise "attempt to get argmax of an empty sequence"
       ∧ PluginLooper.find_loop_points y sr min_duration
         = TextLine "Error: attempt to get argmax of an empty sequence").
Proof.
  split; [|split].
  - unfold search_loop_frames. split.
    + by intros ->.
    + destruct (flatten m) as [|x l]; [done|].
      destruct (argmax_is_Ok (x :: l)) as [r ->]; done.
  - intros Hne. unfold search_loop_frames.
    destruct (argmax_is_Ok (flatten m) Hne) as [r ->]. simpl.
    destruct (unravel_index r (shape m)). by eexists.
  - intros y sr min_duration Hm.
    unfold PythonLooper.find_loop_points, PluginLooper.find_loop_points,
      synced_loop_frames.
    rewrite Hm. simpl.
    assert (mask (time_to_frames min_duration sr) [] = []) as ->.
    { unfold mask, py_range.
      induction (Z.to_nat _) as [|k IH]; [done|].
      by rewrite seq_S, foldl_snoc, IH. }
    done.
Qed.

Lemma search_raises_iff_empty_witness :
  flatten [[1%Q]] ≠ [] ∧ ∃ pair, search_loop_frames [[1%Q]] = Ok pair.
Proof.
  assert (flatten [[1%Q]] ≠ []) as Hne by discriminate.
  split; [exact Hne|].
  destruct (search_raises_iff_empty [[1%Q]]) as (_ & Hok & _).
  exact (Hok Hne).
Defined.

(** ** The command-line entry points *)

Lemma too_short_iff (n : nat) :
  Qltb (duration_of n analysis_sr) 20 = true ↔ Z.of_nat n < 441000.
Proof.
  rewrite Qltb_lt. unfold duration_of, analysis_sr, Qlt. simpl. lia.
Qed.

(** X12. [plugin/looper.py] ends with status 0 exactly when it is given one
    argument, the file exists, the track is decoded and it lasts at least
    20 seconds; whether [find_loop_points] then found a loop or returned an
    error text does not change the status: the error text is printed on
    standard output and the status is still 0. *)
Theorem plugin_exit_status argv w :
  (status (PluginLooper.main argv w) = 0 ↔
   ∃ script file_path y,
     argv = [script; file_path] ∧ file_exists w = true ∧ load w = Ok y
     ∧ (20 <= duration_of (n_samples y) analysis_sr)%Q)
  ∧ (status (PluginLooper.main argv w) = 0 ∨ status (PluginLooper.main argv w) = 1)
  ∧ (∀ script file_path y msg,
       argv = [script; file_path] → file_exists w = true → load w = Ok y →
       (20 <= duration_of (n_samples y) analysis_sr)%Q →
       synced_loop_frames y analysis_sr
         (PluginLooper.min_loop_duration (duration_of (n_samples y) analysis_sr))
       = Raise msg →
       PluginLooper.main argv w
       = {| stdout := [TextLine ("Error: " +:+ msg)]; stderr := [];
            status := 0 |}).
Proof.
  split; [|split].
  - unfold PluginLooper.main. split.
    + destruct argv as [|script [|file_path [|a2 argv]]]; try done.
      destruct (file_exists w); [|done]. simpl.
      destruct (load w) as [y|e]; [|done].
      destruct (Qltb _ 20) eqn:E; [done|]. intros _.
      exists script, file_path, y. repeat (split; [done|]). by apply Qltb_ge.
    + intros (script & file_path & y & -> & -> & -> & Hlong). simpl.
      by apply Qltb_ge in Hlong as ->.
  - unfold PluginLooper.main.
    destruct argv as [|script [|file_path [|a2 argv]]]; try (by right).
    destruct (file_exists w); [|by right]. simpl.
    destruct (load w) as [y|e]; [|by right].
    destruct (Qltb _ 20); [by right|by left].
  - intros script file_path y msg -> Hexists Hload Hlong Hsync.
    unfold PluginLooper.main. rewrite Hexists, Hload. simpl.
    apply Qltb_ge in Hlong as ->.
    unfold PluginLooper.find_loop_points. by rewrite Hsync.
Qed.

Lemma beatless_track_long :
  (20 <= duration_of (n_samples beatless_track) analysis_sr)%Q.
Proof.
  change (n_samples beatless_track) with (Z.to_nat 441000).
  rewrite duration_of_441000. unfold Qle. simpl. lia.
Qed.

Lemma plugin_exit_status_witness :
  file_exists beatless_world = true ∧ load beatless_world = Ok beatless_track
  ∧ (20 <= duration_of (n_samples beatless_track) analysis_sr)%Q
  ∧ PluginLooper.main ["looper.py"; "track.wav"] beatless_world
    = {| stdout := [TextLine "Error: attempt to get argmin of an empty sequence"];
         stderr := []; status := 0 |}.
Proof.
  assert (file_exists beatless_world = true) as Hexists by reflexivity.
  assert (load beatless_world = Ok beatless_track) as Hload by reflexivity.
  split; [exact Hexists|]. split; [exact Hload|].
  split; [exact beatless_track_long|].
  destruct (plugin_exit_status ["looper.py"; "track.wav"] beatless_world)
    as (_ & _ & Hraise).
  apply (Hraise "looper.py" "track.wav" beatless_track
           "attempt to get argmin of an empty sequence" eq_refl Hexists Hload
           beatless_track_long).
  apply (synced_without_beats beatless_track analysis_sr _ 2 (zero_matrix 2));
    [reflexivity|exact (zero_matrix_square 2)|lia|reflexivity].
Defined.

(** X13. At the analysis rate of 22050 Hz the 20-second threshold is a
    threshold of 441000 samples. A decoded track with fewer samples is
    rejected by [python/looper.py] and by [plugin/looper.py] with their
    fixed messages, whatever the feature extractor would have returned; a
    track of 441000 samples or more passes the test. *)
Theorem short_track_rejected w y :
  load w = Ok y →
  (Z.of_nat (n_samples y) < 441000 →
     PythonLooper.main w
     = {| stdout := [];
          stderr := [TextLine "Error: Audio file is too short for meaningful loop analysis."];
          status := 1 |}
     ∧ ∀ script file_path, file_exists w = true →
         PluginLooper.main [script; file_path] w
         = {| stdout := [TextLine "Error: Audio file too short for analysis"];
              stderr := []; status := 1 |})
  ∧ (441000 ≤ Z.of_nat (n_samples y) →
     PythonLooper.analyse w
     = ('(loop_start, loop_end) ←
          PythonLooper.find_loop_points y analysis_sr
            (PythonLooper.min_loop_duration
               (duration_of (n_samples y) analysis_sr));
        if Qltb loop_start loop_end then Ok (loop_start, loop_end)
        else Raise "Could not find a confident loop.")
     ∧ ∀ script file_path, file_exists w = true →
         status (PluginLooper.main [script; file_path] w) = 0).
Proof.
  intros Hload. split.
  - intros Hshort. apply too_short_iff in Hshort. split.
    + unfold PythonLooper.main, PythonLooper.analyse. rewrite Hload. simpl.
      by rewrite Hshort.
    + intros script file_path Hexists. unfold PluginLooper.main.
      rewrite Hexists, Hload. simpl. by rewrite Hshort.
  - intros Hlong.
    assert (Qltb (duration_of (n_samples y) analysis_sr) 20 = false) as Hpass.
    { destruct (Qltb _ 20) eqn:E; [|done]. apply too_short_iff in E. lia. }
    split.
    + unfold PythonLooper.analyse. rewrite Hload. simpl. by rewrite Hpass.
    + intros script file_path Hexists. unfold PluginLooper.main.
      rewrite Hexists, Hload. simpl. by rewrite Hpass.
Qed.

Lemma short_track_rejected_witness :
  load short_track
  = Ok {| n_samples := 100; recurrence_matrix := Ok []; beat_track := Ok [] |}
  ∧ Z.of_nat 100 < 441000
  ∧ PythonLooper.main short_track
    = {| stdout := [];
         stderr := [TextLine "Error: Audio file is too short for meaningful loop analysis."];
         status := 1 |}.
Proof.
  assert (load short_track
          = Ok {| n_samples := 100; recurrence_matrix := Ok [];
                  beat_track := Ok [] |}) as Hload by reflexivity.
  assert (Z.of_nat 100 < 441000) as Hshort by reflexivity.
  split; [exact Hload|]. split; [exact Hshort|].
  destruct (short_track_rejected short_track _ Hload) as [Hreject _].
  exact (proj1 (Hreject Hshort)).
Defined.

(** ** The minimum loop length in frames *)

Lemma truncate_mono (a b : Q) : (a <= b)%Q → truncate a ≤ truncate b.
Proof.
  destruct a as [p1 q1], b as [p2 q2]. unfold Qle, truncate. simpl.
  intros Hle.
  destruct (Z_lt_le_dec p1 0) as [Hn1|Hp1]; destruct (Z_lt_le_dec p2 0) as [Hn2|Hp2].
  - assert (p1 = - (- p1)) as Hp1 by lia. assert (p2 = - (- p2)) as Hp2 by lia.
    revert Hle Hn1 Hn2. rewrite Hp1, Hp2.
    generalize (- p1) as n1. generalize (- p2) as n2. clear.
    intros n2 n1 Hle Hn1 Hn2.
    rewrite (Z.quot_opp_l n1), (Z.quot_opp_l n2) by lia.
    rewrite !Z.quot_div_nonneg by lia.
    apply Z.opp_le_mono. rewrite !Z.opp_involutive.
    apply Z.div_le_lower_bound; [lia|].
    pose proof (Z.mul_div_le n2 (Z.pos q2)). nia.
  - transitivity 0.
    + assert (p1 = - (- p1)) as Hp1' by lia.
      revert Hn1. rewrite Hp1'. generalize (- p1) as n1. intros n1 Hn1.
      rewrite (Z.quot_opp_l n1) by lia. rewrite Z.quot_div_nonneg by lia.
      pose proof (Z.div_pos n1 (Z.pos q1)). lia.
    + rewrite Z.quot_div_nonneg by lia. apply Z.div_pos; lia.
  - nia.
  - rewrite !Z.quot_div_nonneg by lia.
    apply Z.div_le_lower_bound; [lia|].
    pose proof (Z.mul_div_le p1 (Z.pos q1)). nia.
Qed.

Lemma time_to_frames_mono (a b : Q) sr :
  (a <= b)%Q → time_to_frames a sr ≤ time_to_frames b sr.
Proof.
  intros Hle. unfold time_to_frames, time_to_samples, hop_length.
  apply Z.div_le_mono; [lia|]. apply truncate_mono.
  apply Qmult_le_compat_r; [done|]. by unfold Qle.
Qed.



(** ** More on the extender *)

Section ExtenderResults.
Context {A : Type}.
Implicit Types (y segment extended_audio out : list A) (sr : positive) (target : Q).

Lemma py_slice_elem_of y lo hi (x : A) : x ∈ py_slice y lo hi → x ∈ y.
Proof.
  unfold py_slice. intros Hx.
  rewrite <- (take_drop (Z.to_nat (slice_bound (Z.of_nat (length y)) lo)) y).
  apply elem_of_app. right.
  rewrite <- (take_drop
    (Z.to_nat (slice_bound (Z.of_nat (length y)) hi
               - slice_bound (Z.of_nat (length y)) lo))
    (drop _ y)).
  apply elem_of_app. by left.
Qed.

Lemma copies_elem_of k segment (x : A) :
  x ∈ Extender.copies k segment → x ∈ segment.
Proof.
  induction k as [|k IH]; [by intros ?%not_elem_of_nil|].
  rewrite copies_S. intros [?|?]%elem_of_app; auto.
Qed.

(** What the loop returns: the least number of copies that reaches the
    target. *)
Lemma extend_loop_result fuel sr target segment extended_audio out :
  Extender.extend_loop fuel sr target segment extended_audio
    (Extender.get_duration extended_audio sr) = Some out →
  ∃ k, out = extended_audio ++ Extender.copies k segment
     ∧ (target <= Extender.get_duration out sr)%Q
     ∧ ∀ j, (j < k)%nat →
         (Extender.get_duration (extended_audio ++ Extender.copies j segment) sr
          < target)%Q.
Proof.
  revert extended_audio.
  induction fuel as [|fuel IH]; intros extended_audio; simpl.
  - destruct (Qltb _ target) eqn:E; [done|]. intros [= <-].
    exists 0%nat. unfold Extender.copies. simpl. rewrite app_nil_r.
    split; [done|]. split; [by apply Qltb_ge|intros; lia].
  - destruct (Qltb _ target) eqn:E.
    + intros Hrun. apply IH in Hrun as (k & -> & Hge & Hleast).
      exists (S k). rewrite copies_S, app_assoc.
      split; [done|]. split; [done|].
      intros [|j] Hj.
      * unfold Extender.copies. simpl. rewrite app_nil_r. by apply Qltb_lt.
      * rewrite copies_S, app_assoc. apply Hleast. lia.
    + intros [= <-]. exists 0%nat. unfold Extender.copies. simpl.
      rewrite app_nil_r.
      split; [done|]. split; [by apply Qltb_ge|intros; lia].
Qed.

Lemma copies_prefix k1 k2 segment :
  (k1 ≤ k2)%nat → Extender.copies k1 segment `prefix_of` Extender.copies k2 segment.
Proof.
  revert k2. induction k1 as [|k1 IH]; intros k2 Hle.
  - apply prefix_nil.
  - destruct k2 as [|k2]; [lia|]. rewrite !copies_S.
    apply prefix_app, IH. lia.
Qed.

(** X15. Whatever the loop points and the target, a buffer returned by the
    extender lasts at least the target duration, begins with the slice
    [y[:loop_end_samples]], and holds no sample that is not a sample of the
    input: the output is made by concatenation only. *)
Theorem extend_track_output fuel y sr (loop_start loop_end target : Q) out :
  Extender.extend_track fuel y sr loop_start loop_end target = Some out →
  (target <= Extender.get_duration out sr)%Q
  ∧ py_slice y 0 (time_to_samples loop_end sr) `prefix_of` out
  ∧ ∀ x, x ∈ out → x ∈ y.
Proof.
  unfold Extender.extend_track. intros Hrun.
  apply extend_loop_result in Hrun as (k & -> & Hge & _).
  split; [done|]. split; [by apply prefix_app_r|].
  intros x [Hx|Hx]%elem_of_app.
  - by eapply py_slice_elem_of.
  - eapply py_slice_elem_of. by eapply copies_elem_of.
Qed.

(** X16. The output grows with the target: for the same buffer and loop
    points, the output for a smaller target is a prefix of the output for a
    larger one. *)
Theorem extend_track_monotone fuel1 fuel2 y sr (loop_start loop_end : Q)
    (target1 target2 : Q) out1 out2 :
  (target1 <= target2)%Q →
  Extender.extend_track fuel1 y sr loop_start loop_end target1 = Some out1 →
  Extender.extend_track fuel2 y sr loop_start loop_end target2 = Some out2 →
  out1 `prefix_of` out2 ∧ (length out1 ≤ length out2)%nat.
Proof.
  unfold Extender.extend_track. intros Hle Hrun1 Hrun2.
  apply extend_loop_result in Hrun1 as (k1 & -> & Hge1 & Hleast1).
  apply extend_loop_result in Hrun2 as (k2 & -> & Hge2 & Hleast2).
  assert (k1 ≤ k2)%nat as Hk.
  { destruct (decide (k1 ≤ k2)%nat) as [|Hgt]; [done|]. exfalso.
    assert (k2 < k1)%nat as Hlt by lia.
    specialize (Hleast1 k2 Hlt).
    apply (Qlt_not_le _ _ Hleast1). exact (Qle_trans _ _ _ Hle Hge2). }
  assert (∀ l1 l2 : list A, l1 `prefix_of` l2 → (length l1 ≤ length l2)%nat)
    as Hlen.
  { intros l1 l2 [l ->]. rewrite length_app. lia. }
  assert (py_slice y 0 (time_to_samples loop_end sr)
            ++ Extender.copies k1
                 (py_slice y (time_to_samples loop_start sr)
                    (time_to_samples loop_end sr))
          `prefix_of`
          py_slice y 0 (time_to_samples loop_end sr)
            ++ Extender.copies k2
                 (py_slice y (time_to_samples loop_start sr)
                    (time_to_samples loop_end sr))) as Hpre
    by (apply prefix_app, copies_prefix, Hk).
  split; [done|by apply Hlen].
Qed.

End ExtenderResults.

Lemma extend_track_output_witness :
  Extender.extend_track 5 [1; 2; 3; 4] 1 2 4 7 = Some [1; 2; 3; 4; 3; 4; 3; 4]
  ∧ (7 <= Extender.get_duration [1; 2; 3; 4; 3; 4; 3; 4] 1)%Q
  ∧ ∀ x, x ∈ [1; 2; 3; 4; 3; 4; 3; 4] → x ∈ [1; 2; 3; 4].
Proof.
  assert (Extender.extend_track 5 [1; 2; 3; 4] 1 2 4 7
          = Some [1; 2; 3; 4; 3; 4; 3; 4]) as Hrun by reflexivity.
  split; [exact Hrun|].
  destruct (extend_track_output 5 [1; 2; 3; 4] 1 2 4 7 _ Hrun)
    as (Hge & _ & Hin).
  split; [exact Hge|exact Hin].
Defined.

Lemma extend_track_monotone_witness :
  (5 <= 7)%Q
  ∧ Extender.extend_track 5 [1; 2; 3; 4] 1 2 4 5 = Some [1; 2; 3; 4; 3; 4]
  ∧ Extender.extend_track 5 [1; 2; 3; 4] 1 2 4 7 = Some [1; 2; 3; 4; 3; 4; 3; 4]
  ∧ [1; 2; 3; 4; 3; 4] `prefix_of` [1; 2; 3; 4; 3; 4; 3; 4].
Proof.
  assert (5 <= 7)%Q as Hle by (unfold Qle; simpl; lia).
  assert (Extender.extend_track 5 [1; 2; 3; 4] 1 2 4 5 = Some [1; 2; 3; 4; 3; 4])
    as Hrun1 by reflexivity.
  assert (Extender.extend_track 5 [1; 2; 3; 4] 1 2 4 7
          = Some [1; 2; 3; 4; 3; 4; 3; 4]) as Hrun2 by reflexivity.
  split; [exact Hle|]. split; [exact Hrun1|]. split; [exact Hrun2|].
  exact (proj1 (extend_track_monotone 5 5 [1; 2; 3; 4] 1 2 4 5 7 _ _
                  Hle Hrun1 Hrun2)).
Defined.

Section ExtenderPeriod.
Context {A : Type}.
Implicit Types (y segment out : list A) (sr : positive).

Lemma copies_lookup k segment j :
  (j < k * length segment)%nat →
  Extender.copies k segment !! j = segment !! (j `mod` length segment)%nat.
Proof.
  revert j. induction k as [|k IH]; intros j Hj; [lia|].
  rewrite copies_S.
  destruct (decide (j < length segment)%nat) as [Hlt|Hge].
  - rewrite lookup_app_l by done. by rewrite Nat.mod_small.
  - rewrite lookup_app_r by lia. rewrite IH by lia.
    replace j with ((j - length segment) + 1 * length segment)%nat at 2 by lia.
    by rewrite Nat.Div0.mod_add.
Qed.

(** X17. For loop points inside the buffer, the output repeats itself from
    [loop_start_samples] on with the loop length as period: the sample one
    loop length after a position at or past [loop_start_samples] is the
    sample at that position. *)
Theorem extend_track_periodic fuel y sr (loop_start loop_end target : Q) out :
  let loop_start_samples := time_to_samples loop_start sr in
  let loop_end_samples := time_to_samples loop_end sr in
  let period := Z.to_nat (loop_end_samples - loop_start_samples) in
  0 ≤ loop_start_samples → loop_start_samples < loop_end_samples →
  loop_end_samples ≤ Z.of_nat (length y) →
  Extender.extend_track fuel y sr loop_start loop_end target = Some out →
  ∀ i, (Z.to_nat loop_start_samples ≤ i)%nat → (i + period < length out)%nat →
    out !! (i + period)%nat = out !! i.
Proof.
  intros s e period Hs Hse He Hrun i Hi Hlen.
  unfold Extender.extend_track in Hrun. fold s e in Hrun.
  apply extend_loop_shape in Hrun as (k & _ & ->).
  set (segment := py_slice y s e) in *.
  assert (length segment = period) as Hseg.
  { pose proof (py_slice_within_length y s e) as Hl. fold segment in Hl. lia. }
  assert (py_slice y 0 e = take (Z.to_nat s) y ++ segment) as Hsplit.
  { rewrite py_slice_prefix by lia. unfold segment.
    rewrite py_slice_within by lia. rewrite take_take_drop. f_equal. lia. }
  rewrite Hsplit, <- app_assoc in *.
  change (segment ++ Extender.copies k segment)
    with (Extender.copies (S k) segment) in *.
  assert (length (take (Z.to_nat s) y) = Z.to_nat s) as Hpre
    by (rewrite length_take; lia).
  rewrite length_app, copies_length, Hpre, Hseg in Hlen.
  rewrite !lookup_app_r by lia. rewrite Hpre.
  rewrite !copies_lookup by (rewrite Hseg; lia). rewrite Hseg.
  f_equal.
  replace (i + period - Z.to_nat s)%nat
    with ((i - Z.to_nat s) + 1 * period)%nat by lia.
  by rewrite Nat.Div0.mod_add.
Qed.

End ExtenderPeriod.

Lemma extend_track_periodic_witness :
  let out := [1; 2; 3; 4; 3; 4; 3; 4] in
  0 ≤ time_to_samples 2 1 ∧ time_to_samples 2 1 < time_to_samples 4 1
  ∧ time_to_samples 4 1 ≤ Z.of_nat (length [1; 2; 3; 4])
  ∧ Extender.extend_track 5 [1; 2; 3; 4] 1 2 4 7 = Some out
  ∧ out !! (3 + 2)%nat = out !! 3%nat.
Proof.
  intros out.
  assert (0 ≤ time_to_samples 2 1) as Hs by (vm_compute; discriminate).
  assert (time_to_samples 2 1 < time_to_samples 4 1) as Hse by reflexivity.
  assert (time_to_samples 4 1 ≤ Z.of_nat (length [1; 2; 3; 4])) as He
    by (vm_compute; discriminate).
  assert (Extender.extend_track 5 [1; 2; 3; 4] 1 2 4 7 = Some out) as Hrun
    by reflexivity.
  split; [exact Hs|]. split; [exact Hse|]. split; [exact He|].
  split; [exact Hrun|].
  apply (extend_track_periodic 5 [1; 2; 3; 4] 1 2 4 7 out Hs Hse He Hrun 3%nat);
    vm_compute; lia.
Defined.

(** ** The output path *)

Lemma rfind_index_spec (f : ascii → bool) (l : list ascii) (i : nat) (last : Z) :
  let r := rfind_index f l i last in
  r = last
  ∨ (Z.of_nat i ≤ r ∧ ∃ c, l !! (Z.to_nat r - i)%nat = Some c ∧ f c = true).
Proof.
  revert i last. induction l as [|c l IH]; intros i last; simpl; [by left|].
  destruct (IH (S i) (if f c then Z.of_nat i else last)) as [->|[Hle (c' & Hc' & Hf)]].
  - destruct (f c) eqn:Hc; [|by left]. right. split; [lia|].
    exists c. replace (Z.to_nat (Z.of_nat i) - i)%nat with 0%nat by lia. done.
  - right. split; [lia|]. exists c'. split; [|done].
    replace (Z.to_nat (rfind_index f l (S i) (if f c then Z.of_nat i else last)) - i)%nat
      with (S (Z.to_nat (rfind_index f l (S i) (if f c then Z.of_nat i else last))
               - S i))%nat by lia.
    done.
Qed.

Lemma rfind_spec (f : ascii → bool) (l : list ascii) :
  rfind f l = -1
  ∨ (0 ≤ rfind f l ∧ ∃ c, l !! Z.to_nat (rfind f l) = Some c ∧ f c = true).
Proof.
  unfold rfind. destruct (rfind_index_spec f l 0 (-1)) as [->|[Hle (c & Hc & Hf)]];
    [by left|].
  right. split; [lia|]. exists c. by rewrite Nat.sub_0_r in Hc.
Qed.

Lemma splitext_chars_spec is_sep (p : list ascii) :
  let '(root, ext) := splitext_chars is_sep p in
  root ++ ext = p ∧ (ext = [] ∨ ∃ ext', ext = dot :: ext').
Proof.
  unfold splitext_chars.
  destruct (_ && _) eqn:Hsplit; [|split; [by rewrite app_nil_r|by left]].
  apply andb_true_iff in Hsplit as [Hlt _]. apply Z.ltb_lt in Hlt.
  destruct (rfind_spec is_sep p) as [Hsep|[Hsep _]];
    destruct (rfind_spec (λ c, Ascii.eqb c dot) p) as [Hdot|[Hdot (c & Hc & Heq)]];
    try lia.
  - rewrite py_slice_prefix by lia. split; [apply take_drop|].
    right. apply Ascii.eqb_eq in Heq as ->. exists (drop (S (Z.to_nat (rfind (λ c, Ascii.eqb c dot) p))) p).
    by apply drop_S.
  - rewrite py_slice_prefix by lia. split; [apply take_drop|].
    right. apply Ascii.eqb_eq in Heq as ->. exists (drop (S (Z.to_nat (rfind (λ c, Ascii.eqb c dot) p))) p).
    by apply drop_S.
Qed.

Lemma string_of_list_ascii_app (a b : list ascii) :
  String.string_of_list_ascii (a ++ b)
  = String.string_of_list_ascii a +:+ String.string_of_list_ascii b.
Proof. induction a as [|c a IH]; [done|]. simpl. by rewrite IH. Qed.

Lemma string_app_inv_head (a b c : string) : a +:+ b = a +:+ c → b = c.
Proof. induction a as [|x a IH]; [done|]. simpl. intros [= H]. auto. Qed.

(** [os.path.splitext] cuts the path in two parts that give it back when
    joined, and the extension is empty or starts with a dot: adding
    ["_extended.wav"] to the first part never gives the path back. *)
Lemma splitext_spec is_sep (file_path : string) :
  let '(base_name, ext) := splitext is_sep file_path in
  base_name +:+ ext = file_path
  ∧ (ext = ""%string ∨ ∃ ext', ext = String dot ext')
  ∧ base_name +:+ "_extended.wav" ≠ file_path.
Proof.
  unfold splitext.
  pose proof (splitext_chars_spec is_sep (String.list_ascii_of_string file_path))
    as Hspec.
  destruct (splitext_chars _ _) as [root ext]. destruct Hspec as [Hjoin Hext].
  assert (String.string_of_list_ascii root +:+ String.string_of_list_ascii ext
          = file_path) as Hpath.
  { rewrite <- string_of_list_ascii_app, Hjoin.
    apply String.string_of_list_ascii_of_string. }
  split; [done|]. split.
  - destruct Hext as [->|[ext' ->]]; [by left|]. right. by eexists.
  - intros Hsame. rewrite <- Hpath in Hsame.
    apply string_app_inv_head in Hsame.
    destruct Hext as [->|[ext' ->]]; discriminate Hsame.
Qed.

(** ** The whole script of [python_script.py] *)

Lemma truncate_nonneg (q : Q) : (0 <= q)%Q → 0 ≤ truncate q.
Proof.
  intros Hq. change 0 with (truncate 0). by apply truncate_mono.
Qed.

Lemma truncate_le (q : Q) : (0 <= q)%Q → (inject_Z (truncate q) <= q)%Q.
Proof.
  destruct q as [p d]. unfold Qle, truncate, inject_Z. simpl. intros Hp.
  rewrite Z.quot_div_nonneg by lia.
  pose proof (Z.mul_div_le p (Z.pos d)). lia.
Qed.

Section ScriptRuns.
Context {A : Type}.
Implicit Types (w : @PythonScript.script_world A) (yf : list A) (sr : positive)
  (y : analysis_input).

(** The prefix kept by the extender does not last longer than the loop end. *)
Lemma prefix_duration_le yf sr (t : Q) :
  (0 <= t)%Q →
  (Extender.get_duration (py_slice yf 0 (time_to_samples t sr)) sr <= t)%Q.
Proof.
  intros Ht. unfold time_to_samples.
  assert (0 <= t * inject_Z (Z.pos sr))%Q as Hts
    by (apply Qmult_le_0_compat; [done|by unfold Qle]).
  pose proof (truncate_nonneg _ Hts) as Hnn.
  pose proof (truncate_le _ Hts) as Hle.
  rewrite py_slice_prefix by done.
  set (e := truncate (t * inject_Z (Z.pos sr))) in *.
  assert (Extender.get_duration (take (Z.to_nat e) yf) sr <= e # sr)%Q as Hlen.
  { unfold Extender.get_duration, duration_of, Qle. simpl.
    apply Z.mul_le_mono_pos_r; [lia|]. rewrite length_take. lia. }
  eapply Qle_trans; [exact Hlen|].
  revert Hle. clear. destruct t as [p d]. unfold Qle, Qmult, inject_Z. simpl.
  rewrite Pos.mul_1_r. nia.
Qed.

(** With equal loop points the loop has nothing to append. *)
Lemma extend_track_equal_points fuel yf sr (t target : Q) :
  (Extender.get_duration (py_slice yf 0 (time_to_samples t sr)) sr < target)%Q →
  Extender.extend_track fuel yf sr t t target = None.
Proof.
  intros Hshort. unfold Extender.extend_track.
  assert (py_slice yf (time_to_samples t sr) (time_to_samples t sr) = []) as ->.
  { unfold py_slice. by rewrite Z.sub_diag. }
  by apply extend_loop_empty_segment.
Qed.

Lemma script_find_loop_points y sr min_duration :
  (PythonScript.find_loop_points y sr min_duration).2
  = ('(b1, b2) ← synced_loop_frames y sr min_duration;
     Ok (frames_to_time b1 sr, frames_to_time b2 sr)).
Proof.
  unfold PythonScript.find_loop_points, synced_loop_frames.
  destruct (recurrence_matrix y) as [m|]; [|done]. simpl.
  destruct (search_loop_frames _) as [[s e]|]; [|done]. simpl.
  destruct (beat_track y) as [beat_frames|]; [|done]. simpl.
  destruct (snap_to_beat beat_frames (Z.of_nat s)) as [b1|]; [|done]. simpl.
  by destruct (snap_to_beat beat_frames (Z.of_nat e)) as [b2|].
Qed.

(** X18. [python_script.py] has no collapse check: when both frames snap
    to one beat [b], and the time of that beat is below the requested
    duration, the loop of [extend_track] is entered with an empty segment
    and the script never returns, whatever the decoded buffer is. *)
Theorem script_hangs_on_collapsed_loop w track_path (duration : Z) y b yf srf :
  let total_duration := duration_of (n_samples y) analysis_sr in
  PythonScript.load_analysis w = Ok y →
  (20 <= total_duration)%Q →
  synced_loop_frames y analysis_sr (total_duration * (15 # 100)) = Ok (b, b) →
  PythonScript.load_native w = Ok (yf, srf) →
  0 ≤ b →
  (frames_to_time b analysis_sr < inject_Z duration)%Q →
  ∀ fuel, PythonScript.main fuel w track_path duration = None.
Proof.
  intros total_duration Hload Hlong Hsync Hnative Hb Hbefore fuel.
  unfold PythonScript.main. rewrite Hload. fold total_duration.
  apply Qltb_ge in Hlong as ->.
  pose proof (script_find_loop_points y analysis_sr
                (total_duration * (15 # 100))) as Hfind.
  rewrite Hsync in Hfind. simpl in Hfind.
  destruct (PythonScript.find_loop_points y analysis_sr _) as [found r].
  simpl in Hfind. subst r.
  unfold PythonScript.extend_track. rewrite Hnative.
  rewrite extend_track_equal_points; [done|].
  eapply Qle_lt_trans; [|exact Hbefore].
  apply prefix_duration_le.
  unfold frames_to_time, hop_length, Qle. simpl. lia.
Qed.

End ScriptRuns.

Lemma single_beat_track_long :
  (20 <= duration_of (n_samples single_beat_track) analysis_sr)%Q.
Proof.
  change (n_samples single_beat_track) with (Z.to_nat 441000).
  rewrite duration_of_441000. unfold Qle. simpl. lia.
Qed.

Lemma single_beat_track_synced min_duration :
  synced_loop_frames single_beat_track analysis_sr min_duration = Ok (100, 100).
Proof.
  apply (single_beat_collapses single_beat_track analysis_sr min_duration 2
           (zero_matrix 2) 100);
    [reflexivity|apply zero_matrix_square|lia|reflexivity].
Qed.

Lemma script_hangs_on_collapsed_loop_witness :
  PythonScript.load_analysis single_beat_world = Ok single_beat_track
  ∧ (20 <= duration_of (n_samples single_beat_track) analysis_sr)%Q
  ∧ 0 ≤ 100
  ∧ (frames_to_time 100 analysis_sr < inject_Z 60)%Q
  ∧ ∀ fuel, PythonScript.main fuel single_beat_world "track.mp3" 60 = None.
Proof.
  assert (PythonScript.load_analysis single_beat_world = Ok single_beat_track)
    as Hload by reflexivity.
  assert (0 ≤ 100) as Hb by lia.
  assert (frames_to_time 100 analysis_sr < inject_Z 60)%Q as Hbefore
    by reflexivity.
  split; [exact Hload|]. split; [exact single_beat_track_long|].
  split; [exact Hb|]. split; [exact Hbefore|].
  exact (script_hangs_on_collapsed_loop single_beat_world "track.mp3" 60
           single_beat_track 100 (replicate (Z.to_nat 882000) 0%Q) 44100%positive
           Hload single_beat_track_long (single_beat_track_synced _) eq_refl
           Hb Hbefore).
Defined.

Section ScriptReports.
Context {A : Type}.
Implicit Types (w : @PythonScript.script_world A) (y : analysis_input).

(** X19. [python_script.py] reports every failure on standard output: a
    finished run printed the loading line first, and its last line is
    ["Done!"] when a file was written and ["An error occurred: ..."] when
    none was. A track that cannot be decoded, or that has fewer than 441000
    samples at 22050 Hz, stops the run right after the loading line. *)
Theorem script_reports_on_stdout fuel w track_path (duration : Z) :
  (∀ o, PythonScript.main fuel w track_path duration = Some o →
     (∃ rest, PythonScript.printed_lines o
              = PythonScript.Text ("Loading track: " +:+ track_path) :: rest)
     ∧ match PythonScript.written o with
       | Some _ =>
           last (PythonScript.printed_lines o) = Some (PythonScript.Text "Done!")
       | None =>
           ∃ e, last (PythonScript.printed_lines o)
                = Some (PythonScript.Text ("An error occurred: " +:+ e))
       end)
  ∧ (∀ e, PythonScript.load_analysis w = Raise e →
       PythonScript.main fuel w track_path duration
       = Some {| PythonScript.printed_lines :=
                   [PythonScript.Text ("Loading track: " +:+ track_path);
                    PythonScript.Text ("An error occurred: " +:+ e)];
                 PythonScript.written := None |})
  ∧ (∀ y, PythonScript.load_analysis w = Ok y →
       Z.of_nat (n_samples y) < 441000 →
       PythonScript.main fuel w track_path duration
       = Some {| PythonScript.printed_lines :=
                   [PythonScript.Text ("Loading track: " +:+ track_path);
                    PythonScript.Text
                      "An error occurred: Audio file is too short for loop analysis."];
                 PythonScript.written := None |}).
Proof.
  split; [|split].
  - intros o. unfold PythonScript.main, PythonScript.failed.
    destruct (PythonScript.load_analysis w) as [y|e].
    2: { intros [= <-]. simpl. split; [by eexists|]. by eexists. }
    destruct (Qltb _ 20).
    { intros [= <-]. simpl. split; [by eexists|]. by eexists. }
    destruct (PythonScript.find_loop_points y analysis_sr _) as [found [[ls le]|e]].
    2: { intros [= <-]. simpl. split; [by eexists|].
         exists e. by rewrite app_comm_cons, last_snoc. }
    unfold PythonScript.extend_track.
    destruct (PythonScript.load_native w) as [[yf srf]|e].
    2: { intros [= <-]. simpl. split; [by eexists|].
         exists e. by rewrite app_comm_cons, last_snoc. }
    destruct (Extender.extend_track fuel yf srf ls le _) as [final|]; [|done].
    destruct (splitext _ track_path) as [base_name ext].
    destruct (PythonScript.write_error w) as [e|].
    + intros [= <-]. simpl. split; [by eexists|].
      exists e. by rewrite app_comm_cons, last_snoc.
    + intros [= <-]. simpl. split; [by eexists|].
      by rewrite app_comm_cons, last_app_cons.
  - intros e Hload. unfold PythonScript.main. by rewrite Hload.
  - intros y Hload Hshort. unfold PythonScript.main. rewrite Hload.
    by apply too_short_iff in Hshort as ->.
Qed.

End ScriptReports.

Lemma script_reports_on_stdout_witness :
  PythonScript.load_analysis unreadable_world = Raise "Input file could not be read"
  ∧ PythonScript.main 0 unreadable_world "track.mp3" 60
    = Some {| PythonScript.printed_lines :=
                [PythonScript.Text "Loading track: track.mp3";
                 PythonScript.Text "An error occurred: Input file could not be read"];
              PythonScript.written := None |}.
Proof.
  assert (PythonScript.load_analysis unreadable_world
          = Raise "Input file could not be read") as Hload by reflexivity.
  split; [exact Hload|].
  destruct (script_reports_on_stdout 0 unreadable_world "track.mp3" 60)
    as (_ & Hraise & _).
  exact (Hraise _ Hload).
Defined.

Section ScriptFile.
Context {A : Type}.
Implicit Types (w : @PythonScript.script_world A) (y : analysis_input).

(** X20. When [python_script.py] writes a file, a ["Loop found!"] line was
    printed and the samples written are a slice [yf[:e]] of the buffer
    decoded at the native rate followed by whole copies of a slice
    [yf[s:e]] of it, for some sample indices [s] and [e]: they last at least
    the requested duration, every one of them is a sample of that buffer,
    and the file has the native rate. The file is named
    [base_name + "_extended.wav"], which is never the path of the track. *)
Theorem script_written_file fuel w track_path (duration : Z) o f :
  PythonScript.main fuel w track_path duration = Some o →
  PythonScript.written o = Some f →
  ∃ yf (s e : Z) (k : nat),
    PythonScript.load_native w = Ok (yf, PythonScript.output_sr f)
    ∧ (∃ loop_start loop_end,
         PythonScript.LoopFound loop_start loop_end
         ∈ PythonScript.printed_lines o)
    ∧ PythonScript.final_audio f
      = py_slice yf 0 e ++ Extender.copies k (py_slice yf s e)
    ∧ (inject_Z duration
       <= Extender.get_duration (PythonScript.final_audio f)
            (PythonScript.output_sr f))%Q
    ∧ (∀ x, x ∈ PythonScript.final_audio f → x ∈ yf)
    ∧ PythonScript.output_path f
      = (splitext (PythonScript.is_sep w) track_path).1 +:+ "_extended.wav"
    ∧ PythonScript.output_path f ≠ track_path.
Proof.
  unfold PythonScript.main, PythonScript.failed.
  destruct (PythonScript.load_analysis w) as [y|e]; [|by intros [= <-]].
  destruct (Qltb _ 20); [by intros [= <-]|].
  destruct (PythonScript.find_loop_points y analysis_sr _)
    as [found [[ls le]|e]]; [|by intros [= <-]].
  unfold PythonScript.extend_track.
  destruct (PythonScript.load_native w) as [[yf srf]|e]; [|by intros [= <-]].
  destruct (Extender.extend_track fuel yf srf ls le _) as [final|] eqn:Hrun;
    [|done].
  pose proof (splitext_spec (PythonScript.is_sep w) track_path) as Hpath.
  destruct (splitext _ track_path) as [base_name ext].
  destruct Hpath as (_ & _ & Hnot).
  destruct (PythonScript.write_error w) as [e|]; [by intros [= <-]|].
  intros [= <-]. simpl. intros [= <-]. simpl.
  unfold Extender.extend_track in Hrun.
  apply extend_loop_result in Hrun as (k & -> & Hge & _).
  exists yf, (time_to_samples ls srf), (time_to_samples le srf), k.
  split; [done|]. split.
  { exists ls, le.
    apply elem_of_cons. right. rewrite !elem_of_app. left. right.
    apply elem_of_cons. by left. }
  split; [done|]. split; [done|]. split; [|done].
  intros x [Hx|Hx]%elem_of_app.
  - by eapply py_slice_elem_of.
  - eapply py_slice_elem_of. by eapply copies_elem_of.
Qed.

End ScriptFile.

Lemma script_find_single_peak y sr min_duration n (m : matrix) r c v
    beat_frames b1 b2 :
  recurrence_matrix y = Ok m → square n m →
  entry m r c = Some v → (0 < v)%Q →
  time_to_frames min_duration sr ≤ Z.abs (Z.of_nat r - Z.of_nat c) → r ≠ c →
  (∀ i j x, entry m i j = Some x → (i, j) ≠ (r, c) → (x <= 0)%Q) →
  beat_track y = Ok beat_frames →
  snap_to_beat beat_frames (Z.of_nat (Nat.min c r)) = Ok b1 →
  snap_to_beat beat_frames (Z.of_nat (Nat.max c r)) = Ok b2 →
  PythonScript.find_loop_points y sr min_duration
  = ([PythonScript.Text "Analyzing harmony...";
      PythonScript.Text "Finding the beat and snapping points..."],
     Ok (frames_to_time b1 sr, frames_to_time b2 sr)).
Proof.
  intros Hm Hsq Hpeak Hpos Hfar Hne Hothers Hbeats H1 H2.
  unfold PythonScript.find_loop_points. rewrite Hm. simpl.
  rewrite (search_single_peak n m _ r c v) by done. simpl.
  rewrite Hbeats. simpl. rewrite H1. simpl. by rewrite H2.
Qed.

Lemma peak_track_script_find min_duration :
  time_to_frames min_duration analysis_sr ≤ 699 →
  PythonScript.find_loop_points peak_track analysis_sr min_duration
  = ([PythonScript.Text "Analyzing harmony...";
      PythonScript.Text "Finding the beat and snapping points..."],
     Ok (frames_to_time 0 analysis_sr, frames_to_time 699 analysis_sr)).
Proof.
  intros Hfar.
  destruct (single_peak_entries 700 0 699 1%Q) as (Hsq & Hpeak & Hothers);
    [lia|lia|].
  apply (script_find_single_peak peak_track analysis_sr min_duration 700
           (set_entry 0 699 1%Q (zero_matrix 700)) 0 699 1%Q [0; 699]);
    try done.
Qed.

Lemma peak_script_run :
  PythonScript.main 5 peak_script_world "C:\music\track.mp3" 5
  = Some {|
      PythonScript.printed_lines :=
        [PythonScript.Text "Loading track: C:\music\track.mp3";
         PythonScript.Text "Analyzing harmony...";
         PythonScript.Text "Finding the beat and snapping points...";
         PythonScript.LoopFound (frames_to_time 0 analysis_sr)
                                (frames_to_time 699 analysis_sr);
         PythonScript.Extending 5;
         PythonScript.Text "Saving extended file to: C:\music\track_extended.wav";
         PythonScript.Text "Done!"];
      PythonScript.written :=
        Some {| PythonScript.output_path := "C:\music\track_extended.wav";
                PythonScript.final_audio := [1; 2; 3; 1; 2; 3]%Q;
                PythonScript.output_sr := 1 |}
    |}.
Proof.
  unfold PythonScript.main.
  change (PythonScript.load_analysis peak_script_world) with (Ok peak_track).
  cbv beta iota zeta.
  change (n_samples peak_track) with (Z.to_nat 441000).
  rewrite duration_of_441000.
  change (Qltb (441000 # 22050) 20) with false. cbv beta iota.
  rewrite peak_track_script_find by (by vm_compute).
  unfold PythonScript.extend_track.
  change (PythonScript.load_native peak_script_world)
    with (Ok ([1; 2; 3]%Q, 1%positive) : result (list Q * positive)).
  change (PythonScript.write_error peak_script_world) with (@None string).
  change (PythonScript.is_sep peak_script_world) with nt_sep.
  vm_compute. reflexivity.
Qed.

Lemma script_written_file_witness :
  ∃ o f,
    PythonScript.main 5 peak_script_world "C:\music\track.mp3" 5 = Some o
    ∧ PythonScript.written o = Some f
    ∧ PythonScript.output_path f ≠ "C:\music\track.mp3"
    ∧ (inject_Z 5 <= Extender.get_duration (PythonScript.final_audio f)
                       (PythonScript.output_sr f))%Q.
Proof.
  eexists _, _. split; [exact peak_script_run|]. split; [reflexivity|].
  destruct (script_written_file 5 peak_script_world "C:\music\track.mp3" 5 _ _
              peak_script_run eq_refl)
    as (yf & s & e & k & _ & _ & _ & Hge & _ & _ & Hnot).
  split; [exact Hnot|exact Hge].
Defined.

(** ** A track without a loop *)

Lemma synced_without_peak y sr min_duration n (m : matrix) beat_frames :
  recurrence_matrix y = Ok m → square n m → (0 < n)%nat →
  (∀ i j x, entry (mask (time_to_frames min_duration sr) m) i j = Some x →
            (x <= 0)%Q) →
  beat_track y = Ok beat_frames → beat_frames ≠ [] →
  ∃ b, snap_to_beat beat_frames 0 = Ok b
     ∧ synced_loop_frames y sr min_duration = Ok (b, b).
Proof.
  intros Hm Hsq Hn Hzero Hbeats Hne.
  destruct (snap_to_beat_is_Ok beat_frames 0 Hne) as [b Hb].
  exists b. split; [done|].
  unfold synced_loop_frames. rewrite Hm. simpl.
  rewrite (search_origin_of_nonpositive n);
    [|by apply mask_square|done|done|by apply (mask_entry_diagonal n)].
  simpl. rewrite Hbeats. simpl.
  change (Z.of_nat 0) with 0. by rewrite Hb.
Qed.

(** X21. A track without a loop: when no cell of the masked matrix is
    positive and the beat grid is not empty, both frames are 0 and snap to
    the beat [b] nearest to frame 0. [python/looper.py] then raises its
    collapse error, while [plugin/looper.py] returns the zero-length loop at
    the time of [b]; and so does [analysis/looper.py] on every track whose
    frames do not exceed those of its 10-second minimum. *)
Theorem track_without_loop y sr min_duration n (m : matrix) beat_frames :
  recurrence_matrix y = Ok m → square n m → (0 < n)%nat →
  beat_track y = Ok beat_frames → beat_frames ≠ [] →
  ∃ b, snap_to_beat beat_frames 0 = Ok b
     ∧ ((∀ i j x, entry (mask (time_to_frames min_duration sr) m) i j = Some x →
                  (x <= 0)%Q) →
        PythonLooper.find_loop_points y sr min_duration
        = Raise "Loop points are too close to sync to the beat."
        ∧ PluginLooper.find_loop_points y sr min_duration
          = LoopLine (frames_to_time b sr) (frames_to_time b sr))
     ∧ (Z.of_nat n ≤ time_to_frames 10 sr →
        AnalysisLooper.find_loop_points_from_data y sr
        = AnalysisLooper.Success (frames_to_time b sr) (frames_to_time b sr)).
Proof.
  intros Hm Hsq Hn Hbeats Hne.
  destruct (snap_to_beat_is_Ok beat_frames 0 Hne) as [b Hb].
  exists b. split; [done|]. split.
  - intros Hzero.
    destruct (synced_without_peak y sr min_duration n m beat_frames)
      as (b' & Hb' & Hsync); try done.
    rewrite Hb in Hb'. injection Hb' as <-.
    split; [by apply (python_refuses_collapsed_loop _ _ _ b)|].
    unfold PluginLooper.find_loop_points. by rewrite Hsync.
  - intros Hshort.
    unfold AnalysisLooper.find_loop_points_from_data.
    set (d := AnalysisLooper.min_duration _).
    assert (Z.of_nat n ≤ time_to_frames d sr) as Hall.
    { etrans; [exact Hshort|]. apply time_to_frames_mono.
      unfold d, AnalysisLooper.min_duration.
      destruct (Qltb _ 10) eqn:E; [apply Qle_refl|]. by apply Qltb_ge in E. }
    destruct (synced_without_peak y sr d n m beat_frames)
      as (b' & Hb' & Hsync); try done.
    { intros i j x Hx.
      destruct (entry_is_Some_lt n (mask (time_to_frames d sr) m) i j)
        as [Hi Hj]; [by apply mask_square|by eexists|].
      rewrite (mask_fully n) in Hx by done. injection Hx as <-. apply Qle_refl. }
    rewrite Hb in Hb'. injection Hb' as <-. by rewrite Hsync.
Qed.

Lemma track_without_loop_witness :
  recurrence_matrix single_beat_track = Ok (zero_matrix 2)
  ∧ square 2 (zero_matrix 2) ∧ (0 < 2)%nat
  ∧ beat_track single_beat_track = Ok [100] ∧ [100] ≠ ([] : list Z)
  ∧ ∃ b, snap_to_beat [100] 0 = Ok b
       ∧ (Z.of_nat 2 ≤ time_to_frames 10 analysis_sr →
          AnalysisLooper.find_loop_points_from_data single_beat_track analysis_sr
          = AnalysisLooper.Success (frames_to_time b analysis_sr)
                                   (frames_to_time b analysis_sr)).
Proof.
  assert (recurrence_matrix single_beat_track = Ok (zero_matrix 2)) as Hm
    by reflexivity.
  assert (beat_track single_beat_track = Ok [100]) as Hb by reflexivity.
  assert (0 < 2)%nat as Hn by lia.
  assert ([100] ≠ ([] : list Z)) as Hne by discriminate.
  split; [exact Hm|]. split; [exact (zero_matrix_square 2)|].
  split; [exact Hn|]. split; [exact Hb|]. split; [exact Hne|].
  destruct (track_without_loop single_beat_track analysis_sr 15 2 (zero_matrix 2)
              [100] Hm (zero_matrix_square 2) Hn Hb Hne)
    as (b & Hsnap & _ & Hanalysis).
  exists b. split; [exact Hsnap|exact Hanalysis].
Defined.

(** ** The minimum loop duration that each script uses for masking *)










